(** * Vienna Theatre API: a shallow embedding of [src/main.py]

    The service is a thin read layer over a document store, with a
    best-effort seeding step at startup.  This development embeds the
    handlers of [src/main.py] ([ensure_seed_data], [startup_event],
    [get_info], [get_owners], [get_events], [test_database]) as programs of
    a small state-and-exception monad over an explicit model of the store,
    and proves the properties the specification states about them.

    Layout:
    - the stored values and the order the store sorts by;
    - the store, the world and the monad [M] of handlers;
    - the driver operations the source calls on [db];
    - the helpers of [database.py] (absent from [src/], modelled from the
      specification);
    - the functions of [src/main.py];
    - the theorems. *)

From stdpp Require Import gmap strings list sorting.

#[local] Open Scope Z_scope.

(** ** Stored values and their order *)

(** The values the documents of this service hold: strings, integers,
    date-times, [None] and the object identifiers the store assigns.  A
    date-time is the number of microseconds since the epoch of a naive
    UTC [datetime]. *)
Inductive value : Type :=
| VNull
| VInt (n : Z)
| VStr (s : string)
| VOid (n : N)
| VDate (t : Z).

#[global] Instance value_eq_dec : EqDecision value.
Proof. solve_decision. Defined.

(** A sort in the store compares values of different types by the rank of
    their type: null (which a missing field counts as), numbers, strings,
    object identifiers, dates. *)
Definition bson_rank (v : value) : Z :=
  match v with
  | VNull => 1
  | VInt _ => 2
  | VStr _ => 3
  | VOid _ => 7
  | VDate _ => 9
  end.

(** Within one type: numeric order, byte-wise order on strings, and on
    dates the order of time. *)
Definition bson_leb (v1 v2 : value) : bool :=
  if bson_rank v1 <? bson_rank v2 then true
  else if bson_rank v2 <? bson_rank v1 then false
  else match v1, v2 with
       | VInt a, VInt b => a <=? b
       | VStr a, VStr b => String.leb a b
       | VOid a, VOid b => (a <=? b)%N
       | VDate a, VDate b => a <=? b
       | _, _ => true
       end.

Definition bson_le (v1 v2 : value) : Prop := bson_leb v1 v2 = true.
Definition bson_lt (v1 v2 : value) : Prop := bson_leb v2 v1 = false.

#[global] Instance bson_le_dec (v1 v2 : value) : Decision (bson_le v1 v2).
Proof. unfold bson_le. apply _. Defined.

(** ** Documents, the store and the world *)

(** A Python [dict] with string keys, as the driver hands documents out and
    takes them in. *)
Abbreviation document := (gmap string value).

(** A record as the store keeps it.  Every stored record has an identifier,
    which the driver exposes under the key ["_id"]. *)
Record stored : Type := Stored {
  ident : value;
  fields : document;
}.

#[global] Instance stored_eq_dec : EqDecision stored.
Proof. solve_decision. Defined.

Definition to_dict (r : stored) : document := <["_id" := ident r]> (fields r).

(** The database behind the handle: its named collections, each in natural
    (insertion) order, and the next identifier it will assign. *)
Record Database : Type := MkDatabase {
  collections : gmap string (list stored);
  next_oid : N;
}.

(** [db[name]]: a collection that was never written to is empty. *)
Definition collection (d : Database) (name : string) : list stored :=
  default [] (collections d !! name).

(** What the handlers read besides their arguments:
    - [db], the process-wide handle of [database.py], [None] when the
      connection was never set up;
    - [faults], the behaviour of the connection: the n-th entry tells
      whether the n-th call of the driver from now on raises (and with which
      message); calls beyond the script complete;
    - [clock] and [tick]: the readings of the system clock, in order, and
      the number of readings taken so far;
    - [environ], the process environment. *)
Record world : Type := World {
  db : option Database;
  faults : list (option string);
  clock : nat → Z;
  tick : nat;
  environ : gmap string string;
}.

Definition set_db (d : Database) (w : world) : world :=
  World (Some d) (faults w) (clock w) (tick w) (environ w).
Definition set_faults (f : list (option string)) (w : world) : world :=
  World (db w) f (clock w) (tick w) (environ w).
Definition set_tick (n : nat) (w : world) : world :=
  World (db w) (faults w) (clock w) n (environ w).

(** The records of a collection as the world has them; nothing is visible
    without a handle. *)
Definition records (name : string) (w : world) : list stored :=
  match db w with
  | Some d => collection d name
  | None => []
  end.

(** The fault, if any, that the next call of the driver meets. *)
Definition next_fault (w : world) : option string :=
  match faults w with
  | Some msg :: _ => Some msg
  | _ => None
  end.

(** ** Exceptions and the monad of handlers *)

(** The exceptions of this program, all of them instances of Python's
    [Exception]: the [HTTPException] the handlers raise themselves, and any
    other one (an error of the driver, a [TypeError]) with its message. *)
Inductive exn : Type :=
| Exception (msg : string)
| HTTPException (status_code : Z) (detail : string).

Inductive outcome (A : Type) : Type :=
| Return (a : A)
| Raise (e : exn).
Arguments Return {A} a.
Arguments Raise {A} e.

(** A program over a state [S] either returns or raises; what it did to the
    state before raising stays done. *)
Definition ST (S A : Type) : Type := S → outcome A * S.

#[global] Instance ST_ret {S : Type} : MRet (ST S) := λ A a s, (Return a, s).
#[global] Instance ST_bind {S : Type} : MBind (ST S) := λ A B f m s,
  match m s with
  | (Return a, s') => f a s'
  | (Raise e, s') => (Raise e, s')
  end.

(** The handlers run in the world. *)
Abbreviation M := (ST world).

Definition raise {S A : Type} (e : exn) : ST S A := λ s, (Raise e, s).

(** [try: m except Exception as e: h e] *)
Definition try_except {S A : Type} (m : ST S A) (h : exn → ST S A) : ST S A :=
  λ s, match m s with
       | (Return a, s') => (Return a, s')
       | (Raise e, s') => h e s'
       end.

(** [for x in l: body x] *)
Fixpoint for_each {S A : Type} (l : list A) (body : A → ST S unit) : ST S unit :=
  match l with
  | [] => mret tt
  | x :: l' => body x;; for_each l' body
  end.

(** A function body with one mutable local object of type [L] (a [dict]
    built and updated in place): the body runs over the object and the
    world, and the caller gets the object as it is when the body ends. *)
Definition lift {L A : Type} (m : M A) : ST (L * world) A :=
  λ '(l, w), let '(o, w') := m w in (o, (l, w')).

Definition with_local {L A : Type} (init : L) (body : ST (L * world) A)
  : M (A * L) :=
  λ w, match body (init, w) with
       | (Return a, (l, w')) => (Return (a, l), w')
       | (Raise e, (_, w')) => (Raise e, w')
       end.

(** How the framework answers a request from what the handler did: the
    returned value with status 200, the status and detail of an
    [HTTPException], and a plain server error for any other exception. *)
Inductive response (A : Type) : Type :=
| Content (status : Z) (body : A)
| Error (status : Z) (detail : string).
Arguments Content {A} status body.
Arguments Error {A} status detail.

Definition respond {A : Type} (o : outcome A) : response A :=
  match o with
  | Return a => Content 200 a
  | Raise (HTTPException code detail) => Error code detail
  | Raise (Exception _) => Error 500 "Internal Server Error"
  end.

Definition status_of {A : Type} (r : response A) : Z :=
  match r with
  | Content s _ => s
  | Error s _ => s
  end.

(** ** Python built-ins the handlers use *)

(** [str(e)] of an exception: its message; of an [HTTPException], the
    status code and the detail. *)
Definition digit (n : N) : Ascii.ascii := Ascii.ascii_of_N (48 + n).

Fixpoint decimal_aux (fuel : nat) (n : N) (acc : string) : string :=
  match fuel with
  | O => acc
  | S fuel' =>
      let acc' := String (digit (n mod 10)) acc in
      if (n <? 10)%N then acc' else decimal_aux fuel' (n / 10) acc'
  end.

Definition decimal (z : Z) : string :=
  let n := Z.abs_N z in
  let s := decimal_aux (S (N.to_nat (N.log2 n))) n "" in
  if z <? 0 then "-" +:+ s else s.

Definition str (e : exn) : string :=
  match e with
  | Exception msg => msg
  | HTTPException code detail => decimal code +:+ ": " +:+ detail
  end.

(** [s[:n]] on a [str] counts code points.  Strings are kept here as their
    UTF-8 bytes; a byte of the form [10xxxxxx] continues the code point
    before it. *)
Definition continuation (c : Ascii.ascii) : bool :=
  let n := Ascii.N_of_ascii c in (128 <=? n)%N && (n <? 192)%N.

Fixpoint slice_to (n : nat) (s : string) : string :=
  match s with
  | EmptyString => EmptyString
  | String c s' =>
      if continuation c then String c (slice_to n s')
      else match n with
           | O => EmptyString
           | S n' => String c (slice_to n' s')
           end
  end.

(** The truth value of what [find_one] returns: [None] and the empty
    [dict] are false. *)
Definition truthy (doc : option document) : bool :=
  match doc with
  | None => false
  | Some d => negb (bool_decide (d = ∅))
  end.

(** [os.getenv(name)] *)
Definition getenv (name : string) : M (option string) :=
  λ w, (Return (environ w !! name), w).

(** The truth value of an optional string: [None] and [""] are false. *)
Definition nonempty (o : option string) : bool :=
  match o with
  | None | Some EmptyString => false
  | Some _ => true
  end.

(** ** [datetime] *)

Definition microseconds_per_day : Z := 86400000000.

(** [datetime.utcnow()]: the next reading of the clock. *)
Definition utcnow : M Z :=
  λ w, (Return (clock w (tick w)), set_tick (S (tick w)) w).

(** [t.replace(hour=h, minute=m, second=0, microsecond=0)]: the day of [t]
    at [h:m:00.000000]. *)
Definition replace_time (hour minute : Z) (t : Z) : Z :=
  t - t `mod` microseconds_per_day + (hour * 3600 + minute * 60) * 1000000.

(** [timedelta(days=n)] *)
Definition timedelta_days (n : Z) : Z := n * microseconds_per_day.

(** ** The driver: what the source calls on [db] *)

(** The handle, as a handler reads the global [db]. *)
Definition handle : M (option Database) := λ w, (Return (db w), w).

Definition put_db (d : Database) : M unit := λ w, (Return tt, set_db d w).

(** The world once the connection has served a call: the script moves on. *)
Definition served (w : world) : world := set_faults (tail (faults w)) w.

(** One round trip to the store.  Without a handle the call is an
    operation on [None], a [TypeError] or [AttributeError] with message
    [absent]; with one, the connection's script decides whether the call
    raises. *)
Definition driver_call (absent : string) : M Database := λ w,
  match db w with
  | None => (Raise (Exception absent), w)
  | Some d =>
      match next_fault w with
      | Some msg => (Raise (Exception msg), served w)
      | None => (Return d, served w)
      end
  end.

Definition not_subscriptable : string :=
  "'NoneType' object is not subscriptable".

(** Sorting.  The store orders the documents of a query by the value of one
    field, a missing field counting as null. *)
Inductive direction : Type := ASCENDING | DESCENDING.

Definition sort_key (field : string) (d : document) : value :=
  default VNull (d !! field).

Definition before (field : string) (dir : direction) (d1 d2 : document) : bool :=
  match dir with
  | ASCENDING => bson_leb (sort_key field d1) (sort_key field d2)
  | DESCENDING => bson_leb (sort_key field d2) (sort_key field d1)
  end.

Fixpoint insert_by {A : Type} (le : A → A → bool) (x : A) (l : list A) : list A :=
  match l with
  | [] => [x]
  | y :: l' => if le x y then x :: y :: l' else y :: insert_by le x l'
  end.

Definition sort_by {A : Type} (le : A → A → bool) (l : list A) : list A :=
  foldr (insert_by le) [] l.

(** The relation a boolean comparison decides. *)
Definition rel_of {A : Type} (le : A → A → bool) : relation A :=
  λ x y, le x y = true.

(** The documents a query over a whole collection yields: natural order
    when no sort is asked for.  Among documents that compare equal a sort
    keeps the natural order (the store promises no order among them; no
    statement below depends on this choice). *)
Definition query (sort : option (string * direction)) (rs : list stored)
  : list document :=
  match sort with
  | None => to_dict <$> rs
  | Some (field, dir) => sort_by (before field dir) (to_dict <$> rs)
  end.

(** [db[name].count_documents({})] *)
Definition count_documents (name : string) : M Z :=
  d ← driver_call not_subscriptable;
  mret (Z.of_nat (length (collection d name))).

(** [list(db[name].find({}))] and [list(db[name].find({}).sort(field, dir))]:
    the driver decodes fresh [dict]s at every query. *)
Definition find (name : string) (sort : option (string * direction))
  : M (list document) :=
  d ← driver_call not_subscriptable;
  mret (query sort (collection d name)).

(** [db[name].find_one({}, sort=[(field, dir)])]: the first document of the
    sorted query, [None] when there is none. *)
Definition find_one (name : string) (sort : option (string * direction))
  : M (option document) :=
  d ← driver_call not_subscriptable;
  mret (head (query sort (collection d name))).

(** [db[name].insert_one(data)]: the record goes to the end of the
    collection, under the identifier it brings or else a fresh one. *)
Definition insert_one (name : string) (data : document) : M unit :=
  d ← driver_call not_subscriptable;
  let r := match data !! "_id" with
           | Some v => Stored v (delete "_id" data)
           | None => Stored (VOid (next_oid d)) data
           end in
  put_db (MkDatabase (<[name := collection d name ++ [r]]> (collections d))
                     (N.succ (next_oid d))).

(** [db.list_collection_names()] *)
Definition list_collection_names : M (list string) :=
  d ← driver_call "'NoneType' object has no attribute 'list_collection_names'";
  mret (elements (dom (collections d))).

(** ** The helpers of [database.py] *)

(** Modelled from the spec: [create_document] of [database.py], which is not
    among the sources.  The specification says of it that seed insertion
    assigns a creation timestamp implicitly via the store: the document is
    inserted into the named collection with the time of insertion under
    ["created_at"]. *)
Definition create_document (name : string) (data : document) : M unit :=
  now ← utcnow;
  insert_one name (<["created_at" := VDate now]> data).

(** Modelled from the spec: [get_documents] of [database.py], which is not
    among the sources.  The specification says that the owners are fetched
    all, in natural order: every document of the named collection, in
    insertion order. *)
Definition get_documents (name : string) : M (list document) :=
  find name None.

(** ** [src/main.py] *)

(** *** The seed content of [ensure_seed_data] *)

Definition seed_info : document :=
  list_to_map [
    ("name", VStr "Kabarett & Impro Wien");
    ("address", VStr "Kreativgasse 12");
    ("city", VStr "Wien");
    ("country", VStr "Österreich");
    ("phone", VStr "+43 1 234 5678");
    ("email", VStr "hello@kabarett-impro.wien");
    ("website", VStr "https://kabarett-impro.wien");
    ("description_de", VStr "Ein quirliges Zuhause für Kabarett, Stand-up und Impro in Wien.");
    ("description_en", VStr "A quirky home for cabaret, stand-up, and improv in Vienna.");
    ("how_to_get_de", VStr "U3 bis Volkstheater, dann 5 Minuten zu Fuß. Straßenbahn 49 bis Siebensternplatz.");
    ("how_to_get_en", VStr "U3 to Volkstheater, then a 5-minute walk. Tram 49 to Siebensternplatz.");
    ("video_reel_url", VStr "https://player.vimeo.com/video/76979871?h=8272103f6e")
  ].

Definition seed_owner_lena : document :=
  list_to_map [
    ("name", VStr "Lena Leitner");
    ("role", VStr "Künstlerische Leitung");
    ("bio_de", VStr "Improverin, Kabarettistin und professionelle Quatschmacherin.");
    ("bio_en", VStr "Improviser, cabaret artist and professional mischief maker.");
    ("avatar", VStr "https://i.pravatar.cc/200?img=5")
  ].

Definition seed_owner_max : document :=
  list_to_map [
    ("name", VStr "Max Maurer");
    ("role", VStr "Geschäftsführung");
    ("bio_de", VStr "Organisationswitz mit Herz für Pointen und Publikum.");
    ("bio_en", VStr "Organizational wizard with a heart for punchlines and people.");
    ("avatar", VStr "https://i.pravatar.cc/200?img=12")
  ].

Definition seed_owners : list document := [seed_owner_lena; seed_owner_max].

Definition seed_event_kabarett (base_date : Z) : document :=
  list_to_map [
    ("title", VStr "Kabarett: Wiener Schmäh");
    ("description", VStr "Pointenreicher Abend mit lokalen Talenten.");
    ("date", VDate (base_date + timedelta_days 7));
    ("language", VStr "de");
    ("category", VStr "Kabarett");
    ("duration_min", VInt 90);
    ("ticket_url", VStr "https://tickets.example.com/kabarett-wiener-schmaeh");
    ("cover_image", VStr "https://images.unsplash.com/photo-1515165562835-c3b8c935f746?q=80&w=1200&auto=format&fit=crop")
  ].

Definition seed_event_improv (base_date : Z) : document :=
  list_to_map [
    ("title", VStr "Improv: Alles kann, nix muss");
    ("description", VStr "Publikumsvorschläge führen zu wilden Szenen.");
    ("date", VDate (base_date + timedelta_days 18));
    ("language", VStr "de");
    ("category", VStr "Impro");
    ("duration_min", VInt 80);
    ("ticket_url", VStr "https://tickets.example.com/improv-alles-kann");
    ("cover_image", VStr "https://images.unsplash.com/photo-1508214751196-bcfd4ca60f91?q=80&w=1200&auto=format&fit=crop")
  ].

Definition seed_event_standup (base_date : Z) : document :=
  list_to_map [
    ("title", VStr "Stand-up: Late Night Laughs");
    ("description", VStr "Englischsprachige Comedians aus ganz Europa.");
    ("date", VDate (base_date + timedelta_days 32));
    ("language", VStr "en");
    ("category", VStr "Stand-up");
    ("duration_min", VInt 100);
    ("ticket_url", VStr "https://tickets.example.com/late-night-laughs");
    ("cover_image", VStr "https://images.unsplash.com/photo-1487537023671-8dce1a785863?q=80&w=1200&auto=format&fit=crop")
  ].

Definition seed_events (base_date : Z) : list document :=
  [seed_event_kabarett base_date; seed_event_improv base_date;
   seed_event_standup base_date].

(** *** [ensure_seed_data] *)

Definition seed_info_step : M unit :=
  n ← count_documents "info";
  if n =? 0 then create_document "info" seed_info else mret tt.

Definition seed_owners_step : M unit :=
  n ← count_documents "owner";
  if n =? 0 then for_each seed_owners (create_document "owner") else mret tt.

Definition seed_events_step : M unit :=
  n ← count_documents "event";
  if n =? 0 then
    now ← utcnow;
    let base_date := replace_time 19 30 now in
    for_each (seed_events base_date) (create_document "event")
  else mret tt.

Definition ensure_seed_data : M unit :=
  h ← handle;
  match h with
  | None => mret tt
  | Some _ => seed_info_step;; seed_owners_step;; seed_events_step
  end.

(** *** [startup_event] *)

Definition startup_event : M unit :=
  try_except ensure_seed_data (λ _, mret tt).

(** *** The content endpoints *)

Definition database_not_available {A : Type} : M A :=
  raise (HTTPException 500 "Database not available").

(** [doc.pop("_id", None)] *)
Definition pop_id (doc : document) : document := delete "_id" doc.

Definition get_info : M document :=
  h ← handle;
  match h with
  | None => database_not_available
  | Some _ =>
      doc ← find_one "info" (Some ("created_at", DESCENDING));
      if negb (truthy doc) then raise (HTTPException 404 "Info not found")
      else match doc with
           | Some d => mret (pop_id d)
           | None => raise (Exception "'NoneType' object has no attribute 'pop'")
           end
  end.

Definition get_owners : M (list document) :=
  h ← handle;
  match h with
  | None => database_not_available
  | Some _ =>
      owners ← get_documents "owner";
      mret (pop_id <$> owners)
  end.

Definition get_events : M (list document) :=
  h ← handle;
  match h with
  | None => database_not_available
  | Some _ =>
      events ← find "event" (Some ("date", ASCENDING));
      mret (pop_id <$> events)
  end.

(** *** The diagnostic endpoint *)

(** The values of the diagnostic object. *)
Inductive pyvalue : Type :=
| PNone
| PStr (s : string)
| PList (l : list string).

Abbreviation payload := (gmap string pyvalue).

(** [response[key] = v] on the local [dict]. *)
Definition assign (key : string) (v : pyvalue) : ST (payload * world) unit :=
  λ '(r, w), (Return tt, (<[key := v]> r, w)).

Definition initial_response : payload :=
  list_to_map [
    ("backend", PStr "✅ Running");
    ("database", PStr "❌ Not Available");
    ("database_url", PNone);
    ("database_name", PNone);
    ("connection_status", PStr "Not Connected");
    ("collections", PList [])
  ].

Definition test_database_body : ST (payload * world) unit :=
  try_except
    (h ← lift handle;
     match h with
     | Some _ =>
         assign "database" (PStr "✅ Available");;
         url ← lift (getenv "DATABASE_URL");
         assign "database_url"
           (PStr (if nonempty url then "✅ Set" else "❌ Not Set"));;
         name ← lift (getenv "DATABASE_NAME");
         assign "database_name"
           (PStr (if nonempty name then "✅ Set" else "❌ Not Set"));;
         assign "connection_status" (PStr "Connected");;
         try_except
           (collections ← lift list_collection_names;
            assign "collections" (PList (take 10 collections));;
            assign "database" (PStr "✅ Connected & Working"))
           (λ e, assign "database"
                   (PStr ("⚠️  Connected but Error: " +:+ slice_to 50 (str e))))
     | None =>
         assign "database" (PStr "⚠️  Available but not initialized")
     end)
    (λ e, assign "database" (PStr ("❌ Error: " +:+ slice_to 50 (str e)))).

Definition test_database : M payload :=
  '(_, response) ← with_local initial_response test_database_body;
  mret response.

(** *** [read_root] *)

Definition read_root : M (gmap string string) :=
  mret {["message" := "Vienna Theatre API running"]}.

(** ** The vocabulary of the statements *)

(** [doc] is the projection of the stored record [r]: the identifier is
    gone and every other key holds what the record holds, nothing where the
    record holds nothing. *)
Definition projection_of (doc : document) (r : stored) : Prop :=
  doc !! "_id" = None ∧ ∀ k : string, k ≠ "_id" → doc !! k = fields r !! k.

(** The order of two documents by the value of one field. *)
Definition key_le (field : string) (d1 d2 : document) : Prop :=
  bson_le (sort_key field d1) (sort_key field d2).

(** The value a stored record holds under a field. *)
Definition field_of (field : string) (r : stored) : value :=
  sort_key field (to_dict r).

(** The connection serves every call from now on. *)
Definition reliable (w : world) : Prop := faults w = [].

(** [w'] is [w] after one more document went into a collection at the next
    reading of the clock, over a connection that keeps serving. *)
Definition appended (name : string) (data : document) (w w' : world) : Prop :=
  reliable w' ∧ is_Some (db w') ∧ clock w' = clock w ∧ tick w' = S (tick w) ∧
  (∃ i : N,
     records name w' =
       records name w ++
         [Stored (VOid i) (<["created_at" := VDate (clock w (tick w))]> data)]) ∧
  (∀ n : string, n ≠ name → records n w' = records n w).

(** Running [m] from [w] leaves the records of a collection as they are. *)
Definition keeps {A : Type} (name : string) (m : M A) (w : world) : Prop :=
  records name (m w).2 = records name w.

(** [m] never touches the records of a collection. *)
Definition preserves {A : Type} (name : string) (m : M A) : Prop :=
  ∀ w, keeps name m w.

(** The diagnostic object once [test_database] has found the handle and
    looked the two environment variables up. *)
Definition connected_response (w : world) : payload :=
  <["connection_status" := PStr "Connected"]>
    (<["database_name" :=
         PStr (if nonempty (environ w !! "DATABASE_NAME") then "✅ Set" else "❌ Not Set")]>
       (<["database_url" :=
            PStr (if nonempty (environ w !! "DATABASE_URL") then "✅ Set" else "❌ Not Set")]>
          (<["database" := PStr "✅ Available"]> initial_response))).

(** The keys of the diagnostic object. *)
Definition diagnostic_keys : gset string :=
  {[ "backend"; "database"; "database_url"; "database_name";
     "connection_status"; "collections" ]}.

(** ** Sample worlds *)

(** The first readings of a clock, on 6 November 2025, and the reading it
    gives from then on. *)
Definition sample_readings : list Z :=
  [ 1762423200000000; 1762423200004170; 1762423200009023; 1762423200013344;
    1762423200013390; 1762423200018801; 1762423200023655; 1762423200027001 ].

Definition sample_clock (n : nat) : Z := nth n sample_readings 1762423200030000.

(** A fresh deployment: a handle on an empty database. *)
Definition fresh_world : world :=
  World (Some (MkDatabase ∅ 0)) [] sample_clock 0 ∅.

(** No handle: the connection was never set up. *)
Definition detached_world : world := World None [] sample_clock 0 ∅.

(** A fresh deployment whose connection drops at the second call. *)
Definition flaky_world : world :=
  set_faults [None; Some "connection reset"] fresh_world.

(** A store whose events and info records were not inserted in the order of
    their dates. *)
Definition shuffled_db : Database :=
  MkDatabase
    {[ "event" :=
         [ Stored (VOid 0) {[ "title" := VStr "third"; "date" := VDate 30 ]};
           Stored (VOid 1) {[ "title" := VStr "first"; "date" := VDate 10 ]};
           Stored (VOid 2) {[ "title" := VStr "second"; "date" := VDate 20 ]} ];
       "info" :=
         [ Stored (VOid 3) {[ "name" := VStr "new"; "created_at" := VDate 9 ]};
           Stored (VOid 4) {[ "name" := VStr "old"; "created_at" := VDate 5 ]} ] ]}
    5.

Definition shuffled_world : world :=
  World (Some shuffled_db) [] sample_clock 0 ∅.

(** The sample store behind a connection that refuses the next call. *)
Definition unreachable_world : world :=
  set_faults
    [Some "localhost:27017: [Errno 111] Connection refused, Timeout: 30s"]
    shuffled_world.

(** The same events as in [shuffled_db], inserted in another order. *)
Definition reshuffled_world : world :=
  World
    (Some (MkDatabase
       {[ "event" :=
            [ Stored (VOid 1) {[ "title" := VStr "first"; "date" := VDate 10 ]};
              Stored (VOid 2) {[ "title" := VStr "second"; "date" := VDate 20 ]};
              Stored (VOid 0) {[ "title" := VStr "third"; "date" := VDate 30 ]} ] ]}
       3))
    [] sample_clock 0 ∅.

(** Two venue records created one after the other on a fresh deployment. *)
Definition two_infos : M unit :=
  create_document "info" {[ "name" := VStr "Theater am Eck" ]};;
  create_document "info" {[ "name" := VStr "Kabarett & Impro Wien" ]}.

(** ** The response models *)

(** The types the response models of [src/main.py] declare. *)
Inductive field_type : Type := TStr | TInt | TDatetime.

Definition has_type (t : field_type) (v : value) : bool :=
  match t, v with
  | TStr, VStr _ | TInt, VInt _ | TDatetime, VDate _ => true
  | _, _ => false
  end.

(** A field of a model: [name: T] is required, [name: Optional[T] = None]
    is optional. *)
Record field_decl : Type := Field {
  field_name : string;
  field_ty : field_type;
  optional : bool;
}.

Definition InfoOut : list field_decl :=
  [ Field "name" TStr false;
    Field "address" TStr false;
    Field "city" TStr false;
    Field "country" TStr false;
    Field "phone" TStr true;
    Field "email" TStr true;
    Field "website" TStr true;
    Field "description_de" TStr true;
    Field "description_en" TStr true;
    Field "how_to_get_de" TStr true;
    Field "how_to_get_en" TStr true;
    Field "video_reel_url" TStr true ].

Definition OwnerOut : list field_decl :=
  [ Field "name" TStr false;
    Field "role" TStr false;
    Field "bio_de" TStr false;
    Field "bio_en" TStr false;
    Field "avatar" TStr true ].

Definition EventOut : list field_decl :=
  [ Field "title" TStr false;
    Field "description" TStr true;
    Field "date" TDatetime false;
    Field "language" TStr false;
    Field "category" TStr false;
    Field "duration_min" TInt true;
    Field "ticket_url" TStr true;
    Field "cover_image" TStr true ].

(** A document fits a field when it holds a value of the declared type
    under the field's name, or, the field being optional, holds [None] or
    nothing there. *)
Definition fits (doc : document) (f : field_decl) : bool :=
  match doc !! field_name f with
  | None | Some VNull => optional f
  | Some v => has_type (field_ty f) v
  end.

(** A document fits a model when it fits every field of it; keys the model
    does not declare do not matter. *)
Definition fits_model (model : list field_decl) (doc : document) : bool :=
  forallb (fits doc) model.

(** ** More vocabulary *)

(** The number of code points of a string kept as UTF-8 bytes. *)
Fixpoint code_points (s : string) : nat :=
  match s with
  | EmptyString => O
  | String c s' => if continuation c then code_points s' else S (code_points s')
  end.

(** The names of the collections the database has. *)
Definition collection_names (w : world) : gset string :=
  match db w with
  | Some d => dom (collections d)
  | None => ∅
  end.

(** The collections [ensure_seed_data] looks after. *)
Definition seeded_names : gset string := {[ "info"; "owner"; "event" ]}.

(** Running [m] drops no collection and creates none outside [X]. *)
Definition creates_within {A : Type} (X : gset string) (m : M A) : Prop :=
  ∀ w, collection_names w ⊆ collection_names (m w).2 ∧
       collection_names (m w).2 ⊆ collection_names w ∪ X.

(** The world after [create_document name data] went through on the
    database [d]: the clock was read once, the connection served one call,
    and the stamped document is the last record of the collection. *)
Definition created (name : string) (data : document) (d : Database) (w : world)
  : world :=
  set_db
    (MkDatabase
       (<[name := collection d name ++
                  [Stored (VOid (next_oid d))
                     (<["created_at" := VDate (clock w (tick w))]> data)]]>
          (collections d))
       (N.succ (next_oid d)))
    (served (set_tick (S (tick w)) w)).

(** A world with the sample store and both connection settings in the
    environment, one of them empty. *)
Definition configured_world : world :=
  World (Some shuffled_db) [] sample_clock 0
        {[ "DATABASE_URL" := "mongodb://localhost:27017"; "DATABASE_NAME" := "" ]}.

(** The sample store with its info collection holding a record, behind a
    connection that drops at the fourth call. *)
Definition dropping_world : world :=
  set_faults [None; None; None; Some "connection reset"] shuffled_world.

(** * Properties *)

(** ** The order of stored values *)

Lemma ascii_compare_N (c1 c2 : Ascii.ascii) :
  Ascii.compare c1 c2 = (Ascii.N_of_ascii c1 ?= Ascii.N_of_ascii c2)%N.
Proof. reflexivity. Qed.

Lemma string_compare_refl (s : string) : String.compare s s = Eq.
Proof.
  induction s as [|c s IH]; simpl; [done|].
  by rewrite ascii_compare_N, N.compare_refl.
Qed.

Lemma string_leb_refl (s : string) : String.leb s s = true.
Proof. unfold String.leb. by rewrite string_compare_refl. Qed.

Lemma string_leb_trans (s1 s2 s3 : string) :
  String.leb s1 s2 = true → String.leb s2 s3 = true →
  String.leb s1 s3 = true.
Proof.
  unfold String.leb. revert s2 s3.
  induction s1 as [|c1 s1 IH]; intros [|c2 s2] [|c3 s3]; simpl; try done.
  rewrite !ascii_compare_N.
  destruct (N.compare_spec (Ascii.N_of_ascii c1) (Ascii.N_of_ascii c2)) as [E12|L12|G12];
    destruct (N.compare_spec (Ascii.N_of_ascii c2) (Ascii.N_of_ascii c3)) as [E23|L23|G23];
    try done; intros H12 H23.
  - rewrite E12, E23, N.compare_refl. by apply (IH s2 s3).
  - rewrite E12. by apply N.compare_lt_iff in L23 as ->.
  - rewrite <- E23. by apply N.compare_lt_iff in L12 as ->.
  - assert (Ascii.N_of_ascii c1 < Ascii.N_of_ascii c3)%N as L13 by lia.
    by apply N.compare_lt_iff in L13 as ->.
Qed.

Lemma bson_leb_refl (v : value) : bson_leb v v = true.
Proof.
  unfold bson_leb. rewrite Z.ltb_irrefl.
  destruct v; try done; [apply Z.leb_refl|apply string_leb_refl
                        |apply N.leb_refl|apply Z.leb_refl].
Qed.

Lemma bson_leb_total (v1 v2 : value) : bson_leb v1 v2 = true ∨ bson_leb v2 v1 = true.
Proof.
  unfold bson_leb.
  destruct (Z.ltb_spec (bson_rank v1) (bson_rank v2)); [by left|].
  destruct (Z.ltb_spec (bson_rank v2) (bson_rank v1)); [by right|].
  destruct v1 as [|a|a|a|a], v2 as [|b|b|b|b];
    simpl in *; try lia; try (by left).
  - apply String.leb_total.
  - destruct (N.leb_spec a b); [by left|right; apply N.leb_le; lia].
Qed.

Lemma bson_leb_trans (v1 v2 v3 : value) :
  bson_leb v1 v2 = true → bson_leb v2 v3 = true → bson_leb v1 v3 = true.
Proof.
  unfold bson_leb.
  destruct (Z.ltb_spec (bson_rank v1) (bson_rank v2)),
           (Z.ltb_spec (bson_rank v2) (bson_rank v1)),
           (Z.ltb_spec (bson_rank v2) (bson_rank v3)),
           (Z.ltb_spec (bson_rank v3) (bson_rank v2)),
           (Z.ltb_spec (bson_rank v1) (bson_rank v3)),
           (Z.ltb_spec (bson_rank v3) (bson_rank v1));
    try done; try lia.
  destruct v1 as [|a|a|a|a], v2 as [|b|b|b|b], v3 as [|c|c|c|c];
    simpl in *; try done; try lia.
  - apply string_leb_trans.
  - rewrite !N.leb_le. lia.
Qed.

Lemma bson_le_date (a b : Z) : bson_le (VDate a) (VDate b) ↔ a ≤ b.
Proof. unfold bson_le, bson_leb. simpl. apply Z.leb_le. Qed.

Lemma bson_lt_not_le (v1 v2 : value) : bson_lt v1 v2 → ¬ bson_le v2 v1.
Proof. unfold bson_lt, bson_le. congruence. Qed.

(** ** Sorting *)

Section sorting.
Context {A : Type} (le : A → A → bool).

Lemma insert_by_perm (x : A) (l : list A) : insert_by le x l ≡ₚ x :: l.
Proof.
  induction l as [|y l IH]; simpl; [done|].
  destruct (le x y); [done|]. rewrite IH. apply Permutation_swap.
Qed.

Lemma sort_by_perm (l : list A) : sort_by le l ≡ₚ l.
Proof.
  induction l as [|x l IH]; simpl; [done|].
  by rewrite insert_by_perm, IH.
Qed.

(** A list that is already in order is left as it is. *)
Lemma sort_by_sorted (l : list A) : Sorted (rel_of le) l → sort_by le l = l.
Proof.
  induction 1 as [|x l Hl IH Hx]; simpl; [done|].
  fold (sort_by le l). rewrite IH.
  destruct Hx as [|y l' Hxy]; simpl; [done|].
  unfold rel_of in Hxy. by rewrite Hxy.
Qed.

Hypothesis le_total : ∀ x y, le x y = true ∨ le y x = true.
Hypothesis le_trans : ∀ x y z, le x y = true → le y z = true → le x z = true.

Lemma insert_by_sorted (x : A) (l : list A) :
  StronglySorted (rel_of le) l → StronglySorted (rel_of le) (insert_by le x l).
Proof.
  induction 1 as [|y l Hl IH Hy]; simpl.
  - repeat constructor.
  - destruct (le x y) eqn:Hxy.
    + constructor; [by constructor|].
      constructor; [done|].
      eapply Forall_impl; [exact Hy|]. intros z Hz. by eapply le_trans.
    + constructor; [done|].
      rewrite insert_by_perm. constructor; [|done].
      destruct (le_total x y); [congruence|done].
Qed.

Lemma sort_by_StronglySorted (l : list A) : StronglySorted (rel_of le) (sort_by le l).
Proof.
  induction l as [|x l IH]; simpl; [constructor|by apply insert_by_sorted].
Qed.

(** The first element of the sorted list is below every element. *)
Lemma sort_by_head (l : list A) (x : A) :
  head (sort_by le l) = Some x → x ∈ l ∧ ∀ y, y ∈ l → le x y = true.
Proof.
  intros Hhd. pose proof (sort_by_StronglySorted l) as Hs.
  pose proof (sort_by_perm l) as Hp.
  destruct (sort_by le l) as [|x' l']; simplify_eq/=.
  split; [rewrite <- Hp; left|].
  intros y Hy. rewrite <- Hp in Hy.
  apply StronglySorted_inv in Hs as [_ Hall].
  apply elem_of_cons in Hy as [->|Hy].
  - destruct (le_total x x); done.
  - by eapply Forall_forall in Hall.
Qed.
End sorting.

(** ** Running the monad and the driver *)

Lemma bind_run {S A B : Type} (m : ST S A) (f : A → ST S B) (s : S) :
  (m ≫= f) s = match m s with
               | (Return a, s') => f a s'
               | (Raise e, s') => (Raise e, s')
               end.
Proof. reflexivity. Qed.

Lemma records_served (name : string) (w : world) :
  records name (served w) = records name w.
Proof. reflexivity. Qed.

Lemma records_db (name : string) (w : world) (d : Database) :
  db w = Some d → records name w = collection d name.
Proof. unfold records. by intros ->. Qed.

Lemma next_fault_nil (w : world) : faults w = [] → next_fault w = None.
Proof. unfold next_fault. by intros ->. Qed.

(** A call of the driver either raises what the script says or hands the
    database over; in both cases the content of the store is as before. *)
Lemma driver_call_ok (absent : string) (w : world) (d : Database) :
  db w = Some d → next_fault w = None →
  driver_call absent w = (Return d, served w).
Proof. unfold driver_call. by intros -> ->. Qed.

Lemma driver_call_fault (absent : string) (w : world) (d : Database) (msg : string) :
  db w = Some d → next_fault w = Some msg →
  driver_call absent w = (Raise (Exception msg), served w).
Proof. unfold driver_call. by intros -> ->. Qed.

Lemma driver_call_records (absent name : string) (w : world) :
  records name (driver_call absent w).2 = records name w.
Proof.
  unfold driver_call. destruct (db w) eqn:Hdb; [|done].
  by destruct (next_fault w).
Qed.

Lemma driver_call_returns (absent : string) (w w' : world) (d : Database) :
  driver_call absent w = (Return d, w') →
  db w = Some d ∧ next_fault w = None ∧ w' = served w.
Proof.
  unfold driver_call. destruct (db w); [|done].
  destruct (next_fault w); [done|]. by intros [= -> ->].
Qed.

Ltac run_driver Hdb Hnf :=
  rewrite ?bind_run;
  first [rewrite (driver_call_ok _ _ _ Hdb Hnf)
        |rewrite (driver_call_fault _ _ _ _ Hdb Hnf)].

Lemma count_documents_run (name : string) (w : world) (d : Database) :
  db w = Some d → next_fault w = None →
  count_documents name w = (Return (Z.of_nat (length (collection d name))), served w).
Proof. intros Hdb Hnf. unfold count_documents. by run_driver Hdb Hnf. Qed.

Lemma find_run (name : string) sort (w : world) (d : Database) :
  db w = Some d → next_fault w = None →
  find name sort w = (Return (query sort (collection d name)), served w).
Proof. intros Hdb Hnf. unfold find. by run_driver Hdb Hnf. Qed.

Lemma find_one_run (name : string) sort (w : world) (d : Database) :
  db w = Some d → next_fault w = None →
  find_one name sort w = (Return (head (query sort (collection d name))), served w).
Proof. intros Hdb Hnf. unfold find_one. by run_driver Hdb Hnf. Qed.

(** ** The content endpoints, run *)

Lemma handle_run {B : Type} (f : option Database → M B) (w : world) :
  (handle ≫= f) w = f (db w) w.
Proof. reflexivity. Qed.

Lemma get_events_run (w : world) (d : Database) :
  db w = Some d → next_fault w = None →
  get_events w =
    (Return (pop_id <$> query (Some ("date", ASCENDING)) (collection d "event")),
     served w).
Proof.
  intros Hdb Hnf. unfold get_events. rewrite handle_run, Hdb.
  by rewrite bind_run, (find_run _ _ _ _ Hdb Hnf).
Qed.

Lemma get_owners_run (w : world) (d : Database) :
  db w = Some d → next_fault w = None →
  get_owners w = (Return (pop_id <$> (to_dict <$> collection d "owner")), served w).
Proof.
  intros Hdb Hnf. unfold get_owners, get_documents. rewrite handle_run, Hdb.
  by rewrite bind_run, (find_run _ _ _ _ Hdb Hnf).
Qed.

Lemma get_info_run (w : world) (d : Database) :
  db w = Some d → next_fault w = None →
  get_info w =
    (match head (query (Some ("created_at", DESCENDING)) (collection d "info")) with
     | Some doc => if truthy (Some doc) then Return (pop_id doc)
                   else Raise (HTTPException 404 "Info not found")
     | None => Raise (HTTPException 404 "Info not found")
     end, served w).
Proof.
  intros Hdb Hnf. unfold get_info. rewrite handle_run, Hdb.
  rewrite bind_run, (find_one_run _ _ _ _ Hdb Hnf).
  destruct (head _) as [doc|]; [|done]. by destruct (truthy (Some doc)).
Qed.

(** A store error on a content endpoint propagates. *)
Lemma content_endpoints_fault (w : world) (d : Database) (msg : string) :
  db w = Some d → next_fault w = Some msg →
  get_info w = (Raise (Exception msg), served w) ∧
  get_owners w = (Raise (Exception msg), served w) ∧
  get_events w = (Raise (Exception msg), served w).
Proof.
  intros Hdb Hnf.
  unfold get_info, get_owners, get_events, get_documents, find, find_one.
  rewrite !handle_run, Hdb, !bind_run.
  by rewrite !(driver_call_fault _ _ _ _ Hdb Hnf).
Qed.

(** ** Documents and queries *)

Lemma to_dict_nonempty (r : stored) : to_dict r ≠ ∅.
Proof. unfold to_dict. apply insert_non_empty. Qed.

Lemma truthy_to_dict (r : stored) : truthy (Some (to_dict r)) = true.
Proof.
  simpl. rewrite bool_decide_eq_false_2; [done|apply to_dict_nonempty].
Qed.

Lemma pop_id_projection (r : stored) : projection_of (pop_id (to_dict r)) r.
Proof.
  unfold projection_of, pop_id, to_dict. split.
  - apply lookup_delete_eq.
  - intros k Hk. by rewrite lookup_delete_ne, lookup_insert_ne.
Qed.

Lemma sort_key_pop_id (field : string) (d : document) :
  field ≠ "_id" → sort_key field (pop_id d) = sort_key field d.
Proof. intros Hf. unfold sort_key, pop_id. by rewrite lookup_delete_ne. Qed.

Lemma before_total (field : string) (dir : direction) (d1 d2 : document) :
  before field dir d1 d2 = true ∨ before field dir d2 d1 = true.
Proof. destruct dir; apply bson_leb_total. Qed.

Lemma before_trans (field : string) (dir : direction) (d1 d2 d3 : document) :
  before field dir d1 d2 = true → before field dir d2 d3 = true →
  before field dir d1 d3 = true.
Proof.
  destruct dir; simpl; intros H12 H23; by eapply bson_leb_trans.
Qed.

Lemma query_perm sort (rs : list stored) : query sort rs ≡ₚ to_dict <$> rs.
Proof. destruct sort as [[field dir]|]; [apply sort_by_perm|done]. Qed.

Lemma query_nil_inv sort (rs : list stored) : query sort rs = [] → rs = [].
Proof.
  intros H. eapply fmap_nil_inv, Permutation_nil_r.
  by rewrite <- H, query_perm.
Qed.

Lemma query_sorted (field : string) (dir : direction) (rs : list stored) :
  StronglySorted (rel_of (before field dir)) (query (Some (field, dir)) rs).
Proof.
  apply sort_by_StronglySorted; [apply before_total|apply before_trans].
Qed.

(** The first document of a sorted query is a stored record that every
    record of the collection comes after. *)
Lemma query_head (field : string) (dir : direction) (rs : list stored) (doc : document) :
  head (query (Some (field, dir)) rs) = Some doc →
  ∃ r, r ∈ rs ∧ doc = to_dict r ∧
       ∀ r', r' ∈ rs → before field dir (to_dict r) (to_dict r') = true.
Proof.
  intros Hhd.
  apply sort_by_head in Hhd as [Hin Hmin];
    [|apply before_total|apply before_trans].
  apply list_elem_of_fmap in Hin as (r & -> & Hr).
  exists r. split_and!; [done..|].
  intros r' Hr'. apply Hmin. by apply list_elem_of_fmap_2.
Qed.

Lemma StronglySorted_lookup_le {A : Type} (R : relation A) (l : list A)
    (i j : nat) (x y : A) :
  Reflexive R → StronglySorted R l → (i ≤ j)%nat →
  l !! i = Some x → l !! j = Some y → R x y.
Proof.
  intros HR Hs. revert i j.
  induction Hs as [|z l Hs IH Hz]; intros i j Hij Hi Hj; [done|].
  destruct i as [|i], j as [|j]; simplify_eq/=; try lia.
  - reflexivity.
  - eapply Forall_forall in Hz; [done|]. by eapply list_elem_of_lookup_2.
  - eapply (IH i j); [lia|done..].
Qed.

#[global] Instance key_le_refl (field : string) : Reflexive (key_le field).
Proof. intros d. apply bson_leb_refl. Qed.

(** ** Ordered event listing *)

(** C1. With the store handle present and the store answering the read,
    [get_events] returns every event record (as its projection), in
    non-decreasing order of the date field, whatever the order in which the
    records were inserted: the result is a permutation of the stored
    records, it is sorted by the store's order on the date field, and where
    two of its documents carry dates the earlier position has the earlier
    (or the same) date. *)
Theorem get_events_sorted_by_date (w : world) (d : Database) :
  db w = Some d → next_fault w = None →
  ∃ events : list document,
    get_events w = (Return events, served w) ∧
    events ≡ₚ (pop_id ∘ to_dict) <$> collection d "event" ∧
    StronglySorted (key_le "date") events ∧
    ∀ (i j : nat) (di dj : document) (ti tj : Z),
      (i ≤ j)%nat → events !! i = Some di → events !! j = Some dj →
      di !! "date" = Some (VDate ti) → dj !! "date" = Some (VDate tj) →
      ti ≤ tj.
Proof.
  intros Hdb Hnf. eexists. split; [by apply get_events_run|].
  assert (StronglySorted (key_le "date")
            (pop_id <$> query (Some ("date", ASCENDING)) (collection d "event")))
    as Hsorted.
  { eapply StronglySorted_fmap; [|apply query_sorted].
    intros x y Hxy. unfold key_le. by rewrite !sort_key_pop_id. }
  split_and!; [|done|].
  - by rewrite query_perm, <- list_fmap_compose.
  - intros i j di dj ti tj Hij Hi Hj Hti Htj.
    pose proof (StronglySorted_lookup_le _ _ _ _ _ _ _ Hsorted Hij Hi Hj) as Hle.
    unfold key_le, sort_key in Hle. rewrite Hti, Htj in Hle.
    by apply bson_le_date.
Qed.

Lemma get_events_sorted_by_date_witness :
  ∃ events : list document,
    get_events shuffled_world = (Return events, served shuffled_world) ∧
    events ≡ₚ (pop_id ∘ to_dict) <$> collection shuffled_db "event" ∧
    StronglySorted (key_le "date") events ∧
    ∀ (i j : nat) (di dj : document) (ti tj : Z),
      (i ≤ j)%nat → events !! i = Some di → events !! j = Some dj →
      di !! "date" = Some (VDate ti) → dj !! "date" = Some (VDate tj) →
      ti ≤ tj.
Proof. apply (get_events_sorted_by_date shuffled_world shuffled_db); reflexivity. Defined.

(** The sample store lists its events by date, not by insertion. *)
Example get_events_shuffled :
  (λ doc : document, doc !! "title") <$>
    match (get_events shuffled_world).1 with Return l => l | Raise _ => [] end
  = [Some (VStr "first"); Some (VStr "second"); Some (VStr "third")].
Proof. vm_compute. reflexivity. Qed.

(** ** The projection contract *)

(** C2. Whatever the state of the store, a successful answer of [get_info],
    [get_owners] or [get_events] holds projections of stored records: no
    document carries the internal identifier ["_id"], and under every other
    key it holds exactly what the stored record holds (so a field that is
    not set in the record is absent from the answer).  [get_info] answers
    with the projection of one info record, [get_owners] with what
    [get_documents] hands it, less the identifiers, which are the
    projections of the owner records in their stored order, [get_events]
    with those of the event records in some order. *)
Theorem responses_are_projections (w : world) :
  (∀ (doc : document) (w' : world),
     get_info w = (Return doc, w') →
     ∃ r, r ∈ records "info" w ∧ projection_of doc r) ∧
  (∀ (docs : list document) (w' : world),
     get_owners w = (Return docs, w') →
     (∃ owners, get_documents "owner" w = (Return owners, w') ∧
                docs = pop_id <$> owners) ∧
     Forall2 projection_of docs (records "owner" w)) ∧
  (∀ (docs : list document) (w' : world),
     get_events w = (Return docs, w') →
     ∃ rs, rs ≡ₚ records "event" w ∧ Forall2 projection_of docs rs).
Proof.
  destruct (db w) as [d|] eqn:Hdb.
  2: { unfold get_info, get_owners, get_events.
       rewrite !handle_run, Hdb. by split_and!. }
  destruct (next_fault w) as [msg|] eqn:Hnf.
  { destruct (content_endpoints_fault w d msg Hdb Hnf) as (-> & -> & ->).
    by split_and!. }
  rewrite !(records_db _ _ _ Hdb). split_and!.
  - intros doc w'. rewrite (get_info_run _ _ Hdb Hnf).
    destruct (head _) as [doc'|] eqn:Hhd; [|done].
    apply query_head in Hhd as (r & Hr & -> & _).
    rewrite truthy_to_dict. intros [= <- _].
    exists r. split; [done|apply pop_id_projection].
  - intros docs w'. rewrite (get_owners_run _ _ Hdb Hnf). intros [= <- <-].
    split.
    + eexists. split; [|reflexivity].
      unfold get_documents. by rewrite (find_run _ _ _ _ Hdb Hnf).
    + apply Forall2_fmap_l, Forall2_fmap_l, Forall_Forall2_diag, Forall_forall.
      intros r _. apply pop_id_projection.
  - intros docs w'. rewrite (get_events_run _ _ Hdb Hnf).
    pose proof (query_perm (Some ("date", ASCENDING)) (collection d "event")) as Hp.
    apply Permutation_map_inv in Hp as (rs & Heq & Hrs).
    rewrite Heq. intros [= <- _]. exists rs. split; [done|].
    apply Forall2_fmap_l, Forall2_fmap_l, Forall_Forall2_diag, Forall_forall.
    intros r _. apply pop_id_projection.
Qed.

Lemma responses_are_projections_witness :
  (∃ r, r ∈ records "info" shuffled_world ∧
        projection_of {[ "name" := VStr "new"; "created_at" := VDate 9 ]} r) ∧
  ((∃ owners, get_documents "owner" shuffled_world
                = (Return owners, served shuffled_world) ∧ [] = pop_id <$> owners) ∧
   Forall2 projection_of [] (records "owner" shuffled_world)) ∧
  (∃ rs, rs ≡ₚ records "event" shuffled_world ∧
         Forall2 projection_of
           [ {[ "title" := VStr "first"; "date" := VDate 10 ]};
             {[ "title" := VStr "second"; "date" := VDate 20 ]};
             {[ "title" := VStr "third"; "date" := VDate 30 ]} ] rs).
Proof.
  pose proof (responses_are_projections shuffled_world) as (Hinfo & Howners & Hevents).
  split; [|split].
  - apply (Hinfo _ (served shuffled_world)). vm_compute. reflexivity.
  - apply (Howners _ (served shuffled_world)). vm_compute. reflexivity.
  - apply (Hevents _ (served shuffled_world)). vm_compute. reflexivity.
Defined.

(** ** The store handle is absent *)

(** C5. Without a store handle each of [get_info], [get_owners] and
    [get_events] raises the same [HTTPException], status 500 with the
    detail "Database not available": the client gets an error response with
    that status and message, and no content. *)
Theorem no_handle_is_server_error (w : world) :
  db w = None →
  get_info w = (Raise (HTTPException 500 "Database not available"), w) ∧
  get_owners w = (Raise (HTTPException 500 "Database not available"), w) ∧
  get_events w = (Raise (HTTPException 500 "Database not available"), w) ∧
  respond (get_info w).1 = Error 500 "Database not available" ∧
  respond (get_owners w).1 = Error 500 "Database not available" ∧
  respond (get_events w).1 = Error 500 "Database not available".
Proof.
  intros Hdb. unfold get_info, get_owners, get_events.
  rewrite !handle_run, Hdb. by split_and!.
Qed.

Lemma no_handle_is_server_error_witness :
  get_info detached_world
    = (Raise (HTTPException 500 "Database not available"), detached_world) ∧
  get_owners detached_world
    = (Raise (HTTPException 500 "Database not available"), detached_world) ∧
  get_events detached_world
    = (Raise (HTTPException 500 "Database not available"), detached_world) ∧
  respond (get_info detached_world).1 = Error 500 "Database not available" ∧
  respond (get_owners detached_world).1 = Error 500 "Database not available" ∧
  respond (get_events detached_world).1 = Error 500 "Database not available".
Proof. apply (no_handle_is_server_error detached_world). reflexivity. Defined.

(** ** The info record *)

(** C7. [get_info] answers 404 exactly when the store handle is present and
    the info collection is empty.  Whenever the answer has status 404 the
    handle is present, the collection is empty and the handler raised
    "Info not found" (no content); and with the handle present, the
    collection empty and the store answering the read, the handler raises
    that exception. *)
Theorem get_info_not_found (w : world) :
  (∀ (o : outcome document) (w' : world),
     get_info w = (o, w') → status_of (respond o) = 404 →
     is_Some (db w) ∧ records "info" w = [] ∧
     o = Raise (HTTPException 404 "Info not found")) ∧
  (is_Some (db w) → records "info" w = [] → next_fault w = None →
   get_info w = (Raise (HTTPException 404 "Info not found"), served w) ∧
   respond (get_info w).1 = Error 404 "Info not found").
Proof.
  destruct (db w) as [d|] eqn:Hdb.
  2: { split; [|by intros []].
       intros o w'. unfold get_info. rewrite handle_run, Hdb. by intros [= <- _]. }
  rewrite (records_db _ _ _ Hdb).
  destruct (next_fault w) as [msg|] eqn:Hnf.
  { destruct (content_endpoints_fault w d msg Hdb Hnf) as (-> & _).
    split; [|done]. by intros o w' [= <- _]. }
  rewrite (get_info_run _ _ Hdb Hnf).
  destruct (head (query _ (collection d "info"))) as [doc|] eqn:Hhd.
  - apply query_head in Hhd as (r & Hr & -> & _).
    rewrite truthy_to_dict. split.
    + by intros o w' [= <- _].
    + intros _ Hempty. rewrite Hempty in Hr. by apply elem_of_nil in Hr.
  - apply head_None, query_nil_inv in Hhd. split.
    + by intros o w' [= <- _] _.
    + done.
Qed.

Lemma get_info_not_found_witness :
  (is_Some (db fresh_world) ∧ records "info" fresh_world = []) ∧
  get_info fresh_world
    = (Raise (HTTPException 404 "Info not found"), served fresh_world) ∧
  respond (get_info fresh_world).1 = Error 404 "Info not found".
Proof.
  pose proof (get_info_not_found fresh_world) as [Honly Hif].
  assert (get_info fresh_world
          = (Raise (HTTPException 404 "Info not found"), served fresh_world) ∧
          respond (get_info fresh_world).1 = Error 404 "Info not found")
    as [Hrun Hresp] by (apply Hif; [by eexists|reflexivity..]).
  split; [|done].
  destruct (Honly _ _ Hrun eq_refl) as (Hdb & Hempty & _). done.
Defined.

(** C9. With one or more info records (in particular with more than one),
    [get_info] answers with the projection of a record whose ["created_at"]
    is the greatest of the collection: every record of the collection has a
    creation timestamp at or below it; and when one record is strictly the
    latest, that record is the one returned. *)
Theorem get_info_most_recent (w : world) (d : Database) :
  db w = Some d → next_fault w = None → collection d "info" ≠ [] →
  ∃ r : stored,
    r ∈ collection d "info" ∧
    get_info w = (Return (pop_id (to_dict r)), served w) ∧
    (∀ r', r' ∈ collection d "info" →
           bson_le (field_of "created_at" r') (field_of "created_at" r)) ∧
    (∀ latest, latest ∈ collection d "info" →
       (∀ r', r' ∈ collection d "info" → r' ≠ latest →
              bson_lt (field_of "created_at" r') (field_of "created_at" latest)) →
       r = latest).
Proof.
  intros Hdb Hnf Hne. rewrite (get_info_run _ _ Hdb Hnf).
  destruct (head _) as [doc|] eqn:Hhd.
  2: { by apply head_None, query_nil_inv in Hhd. }
  apply query_head in Hhd as (r & Hr & -> & Hmax).
  rewrite truthy_to_dict. exists r. split_and!; [done..| |].
  - intros r' Hr'. by apply Hmax.
  - intros latest Hin Hlatest.
    destruct (decide (r = latest)) as [|Hneq]; [done|].
    specialize (Hlatest r Hr Hneq). specialize (Hmax latest Hin).
    by apply bson_lt_not_le in Hlatest.
Qed.

Lemma get_info_most_recent_witness :
  ∃ r : stored,
    r ∈ collection shuffled_db "info" ∧
    get_info shuffled_world = (Return (pop_id (to_dict r)), served shuffled_world) ∧
    (∀ r', r' ∈ collection shuffled_db "info" →
           bson_le (field_of "created_at" r') (field_of "created_at" r)) ∧
    (∀ latest, latest ∈ collection shuffled_db "info" →
       (∀ r', r' ∈ collection shuffled_db "info" → r' ≠ latest →
              bson_lt (field_of "created_at" r') (field_of "created_at" latest)) →
       r = latest).
Proof.
  apply (get_info_most_recent shuffled_world shuffled_db);
    [reflexivity|reflexivity|vm_compute; discriminate].
Defined.

(** Of the two info records of the sample store the one stamped later is
    returned, although it was inserted first. *)
Example get_info_shuffled :
  (get_info shuffled_world).1
  = Return {[ "name" := VStr "new"; "created_at" := VDate 9 ]}.
Proof. vm_compute. reflexivity. Qed.

(** ** Empty collections *)

(** C10. With the store handle present and the store answering the read, an
    empty owner collection makes [get_owners] return the empty list and an
    empty event collection makes [get_events] return the empty list, both
    answered with status 200; an empty info collection makes [get_info]
    answer 404. *)
Theorem empty_collections (w : world) (d : Database) :
  db w = Some d → next_fault w = None →
  (collection d "owner" = [] →
   get_owners w = (Return [], served w) ∧
   respond (get_owners w).1 = Content 200 []) ∧
  (collection d "event" = [] →
   get_events w = (Return [], served w) ∧
   respond (get_events w).1 = Content 200 []) ∧
  (collection d "info" = [] →
   respond (get_info w).1 = Error 404 "Info not found").
Proof.
  intros Hdb Hnf.
  rewrite (get_owners_run _ _ Hdb Hnf), (get_events_run _ _ Hdb Hnf),
    (get_info_run _ _ Hdb Hnf).
  split_and!; by intros ->.
Qed.

Lemma empty_collections_witness :
  (get_owners fresh_world = (Return [], served fresh_world) ∧
   respond (get_owners fresh_world).1 = Content 200 []) ∧
  (get_events fresh_world = (Return [], served fresh_world) ∧
   respond (get_events fresh_world).1 = Content 200 []) ∧
  respond (get_info fresh_world).1 = Error 404 "Info not found".
Proof.
  pose proof (empty_collections fresh_world (MkDatabase ∅ 0) eq_refl eq_refl)
    as (Howners & Hevents & Hinfo).
  split; [by apply Howners|]. split; [by apply Hevents|by apply Hinfo].
Defined.

(** ** Startup *)

(** C8. Whatever happens during seeding, [startup_event] returns normally:
    it never raises, and when [ensure_seed_data] raises, startup ends in the
    world the failed seeding left, with nothing to report. *)
Theorem startup_swallows_seeding_failure (w : world) :
  (∃ w', startup_event w = (Return tt, w')) ∧
  (∀ (e : exn) (w' : world),
     ensure_seed_data w = (Raise e, w') → startup_event w = (Return tt, w')).
Proof.
  unfold startup_event, try_except.
  destruct (ensure_seed_data w) as [[[]|e] w']; split; try by eauto.
  - by intros e' w'' [= <- <-].
Qed.

Lemma startup_swallows_seeding_failure_witness :
  ensure_seed_data flaky_world
    = (Raise (Exception "connection reset"), (ensure_seed_data flaky_world).2) ∧
  startup_event flaky_world = (Return tt, (ensure_seed_data flaky_world).2).
Proof.
  assert (ensure_seed_data flaky_world
          = (Raise (Exception "connection reset"), (ensure_seed_data flaky_world).2))
    as Hfail by (vm_compute; reflexivity).
  split; [exact Hfail|].
  exact (proj2 (startup_swallows_seeding_failure flaky_world) _ _ Hfail).
Defined.

(** ** The diagnostic endpoint *)

Ltac run_monad :=
  cbv beta iota zeta delta
    [mbind ST_bind mret ST_ret try_except lift handle getenv assign with_local
     raise].

Lemma test_database_absent (w : world) :
  db w = None →
  test_database w =
    (Return (<["database" := PStr "⚠️  Available but not initialized"]>
               initial_response), w).
Proof.
  intros Hdb. unfold test_database, test_database_body.
  do 2 (run_monad; rewrite ?Hdb). done.
Qed.

Lemma test_database_fault (w : world) (d : Database) (msg : string) :
  db w = Some d → next_fault w = Some msg →
  test_database w =
    (Return (<["database" :=
                 PStr ("⚠️  Connected but Error: " +:+ slice_to 50 msg)]>
               (connected_response w)), served w).
Proof.
  intros Hdb Hnf.
  unfold test_database, test_database_body, list_collection_names, driver_call.
  do 3 (run_monad; rewrite ?Hdb, ?Hnf). done.
Qed.

Lemma test_database_connected (w : world) (d : Database) :
  db w = Some d → next_fault w = None →
  test_database w =
    (Return (<["database" := PStr "✅ Connected & Working"]>
               (<["collections" := PList (take 10 (elements (dom (collections d))))]>
                  (connected_response w))), served w).
Proof.
  intros Hdb Hnf.
  unfold test_database, test_database_body, list_collection_names, driver_call.
  do 3 (run_monad; rewrite ?Hdb, ?Hnf). done.
Qed.

Lemma dom_initial_response : dom initial_response = diagnostic_keys.
Proof. vm_compute. reflexivity. Qed.

Lemma initial_response_collections :
  initial_response !! "collections" = Some (PList []).
Proof. vm_compute. reflexivity. Qed.

Lemma diagnostic_keys_insert (k : string) (v : pyvalue) (r : payload) :
  bool_decide (k ∈ diagnostic_keys) = true → dom r = diagnostic_keys →
  dom (<[k := v]> r) = diagnostic_keys.
Proof.
  intros Hk%bool_decide_eq_true Hr. rewrite dom_insert_L, Hr.
  by apply subseteq_union_1_L, singleton_subseteq_l.
Qed.

Ltac diagnostic_key := apply diagnostic_keys_insert; [vm_compute; reflexivity|].

Lemma dom_connected_response (w : world) :
  dom (connected_response w) = diagnostic_keys.
Proof.
  unfold connected_response. do 4 diagnostic_key. apply dom_initial_response.
Qed.

Lemma connected_response_collections (w : world) :
  connected_response w !! "collections" = Some (PList []).
Proof.
  unfold connected_response.
  rewrite !lookup_insert_ne by done. apply initial_response_collections.
Qed.

(** C6. In every world (no handle, a handle whose listing of the collection
    names raises, a handle that answers) [test_database] returns normally
    and is answered with status 200.  Its payload has exactly the keys
    [backend], [database], [database_url], [database_name],
    [connection_status] and [collections]; [collections] is a list of at
    most 10 names; and the failure modes are told by the string under
    [database]: the absent handle, and the message (its first 50
    characters) of the exception the listing raised. *)
Theorem test_database_always_answers (w : world) :
  ∃ (resp : payload) (w' : world) (names : list string) (status : string),
    test_database w = (Return resp, w') ∧
    respond (test_database w).1 = Content 200 resp ∧
    dom resp = diagnostic_keys ∧
    resp !! "collections" = Some (PList names) ∧
    (length names ≤ 10)%nat ∧
    resp !! "database" = Some (PStr status) ∧
    (db w = None →
     status = "⚠️  Available but not initialized" ∧ names = []) ∧
    (∀ msg, is_Some (db w) → next_fault w = Some msg →
            status = "⚠️  Connected but Error: " +:+ slice_to 50 msg ∧
            names = []) ∧
    (∀ d, db w = Some d → next_fault w = None →
          status = "✅ Connected & Working" ∧
          names = take 10 (elements (dom (collections d)))).
Proof.
  destruct (db w) as [d|] eqn:Hdb; [destruct (next_fault w) as [msg|] eqn:Hnf|].
  - rewrite (test_database_fault w d msg Hdb Hnf).
    eexists _, _, [], _. split_and!; [done|done| | |simpl; lia| |done| |done].
    + diagnostic_key. apply dom_connected_response.
    + rewrite lookup_insert_ne by done. apply connected_response_collections.
    + apply lookup_insert_eq.
    + by intros msg' _ [= <-].
  - rewrite (test_database_connected w d Hdb Hnf).
    eexists _, _, _, _. split_and!; [done|done| | | | |done|done|].
    + do 2 diagnostic_key. apply dom_connected_response.
    + rewrite lookup_insert_ne by done. apply lookup_insert_eq.
    + rewrite length_take. lia.
    + apply lookup_insert_eq.
    + by intros d' [= <-] _.
  - rewrite (test_database_absent w Hdb).
    eexists _, _, [], _. split_and!; [done|done| | |simpl; lia| |done| |done].
    + diagnostic_key. apply dom_initial_response.
    + rewrite lookup_insert_ne by done. apply initial_response_collections.
    + apply lookup_insert_eq.
    + by intros msg [].
Qed.

(** ** Seeding touches only empty collections *)

Lemma keeps_bind {A B : Type} (name : string) (m : M A) (f : A → M B) (w : world) :
  keeps name m w →
  (∀ a w', m w = (Return a, w') → keeps name (f a) w') →
  keeps name (m ≫= f) w.
Proof.
  unfold keeps. intros Hm Hf. rewrite bind_run.
  destruct (m w) as [[a|e] w'] eqn:Hrun; simpl in *; [|done].
  by rewrite (Hf a w' eq_refl).
Qed.

Lemma preserves_bind {A B : Type} (name : string) (m : M A) (f : A → M B) :
  preserves name m → (∀ a, preserves name (f a)) → preserves name (m ≫= f).
Proof. intros Hm Hf w. apply keeps_bind; [apply Hm|]. intros a w' _. apply Hf. Qed.

Lemma preserves_ret {A : Type} (name : string) (a : A) : preserves name (mret a).
Proof. by intros w. Qed.

Lemma preserves_utcnow (name : string) : preserves name utcnow.
Proof. by intros w. Qed.

Lemma preserves_driver_call (name absent : string) :
  preserves name (driver_call absent).
Proof. intros w. apply driver_call_records. Qed.

Lemma preserves_count_documents (name c : string) :
  preserves name (count_documents c).
Proof.
  apply preserves_bind; [apply preserves_driver_call|].
  intros d. apply preserves_ret.
Qed.

Lemma collection_insert_ne (d : Database) (c name : string) (rs : list stored) (n : N) :
  c ≠ name →
  collection (MkDatabase (<[c := rs]> (collections d)) n) name = collection d name.
Proof. intros Hne. unfold collection. simpl. by rewrite lookup_insert_ne. Qed.

Lemma collection_insert_eq (d : Database) (c : string) (rs : list stored) (n : N) :
  collection (MkDatabase (<[c := rs]> (collections d)) n) c = rs.
Proof. unfold collection. simpl. by rewrite lookup_insert_eq. Qed.

(** Inserting into one collection leaves every other collection alone. *)
Lemma preserves_insert_one (name c : string) (data : document) :
  c ≠ name → preserves name (insert_one c data).
Proof.
  intros Hne w. unfold insert_one. apply keeps_bind; [apply preserves_driver_call|].
  intros d w' (Hdb & _ & ->)%driver_call_returns.
  unfold keeps, put_db, records. simpl. rewrite Hdb.
  by apply collection_insert_ne.
Qed.

Lemma preserves_create_document (name c : string) (data : document) :
  c ≠ name → preserves name (create_document c data).
Proof.
  intros Hne. apply preserves_bind; [apply preserves_utcnow|].
  intros now. by apply preserves_insert_one.
Qed.

Lemma preserves_for_each {A : Type} (name : string) (l : list A) (body : A → M unit) :
  (∀ x, preserves name (body x)) → preserves name (for_each l body).
Proof.
  intros Hbody. induction l as [|x l IH]; simpl; [apply preserves_ret|].
  apply preserves_bind; [apply Hbody|]. by intros _.
Qed.

(** One seeding step, on the collection [c] with the insertions [body]: it
    leaves a collection alone when this is another collection than the one
    [body] writes to, and when it is [c] itself and [c] has records. *)
Lemma seed_step_keeps (name c : string) (body : M unit) (w : world) :
  (c = name → records name w ≠ []) →
  (c ≠ name → preserves name body) →
  keeps name (n ← count_documents c; if n =? 0 then body else mret tt) w.
Proof.
  intros Hsame Hother. apply keeps_bind; [apply preserves_count_documents|].
  intros n w'. unfold count_documents. rewrite bind_run.
  destruct (driver_call not_subscriptable w) as [[d|e] w1] eqn:Hcall; [|done].
  apply driver_call_returns in Hcall as (Hdb & _ & ->).
  intros [= <- <-]. destruct (decide (c = name)) as [->|Hne].
  - specialize (Hsame eq_refl). rewrite (records_db _ _ _ Hdb) in Hsame.
    destruct (collection d name); [done|]. by simpl.
  - destruct (_ =? 0); [by apply Hother|done].
Qed.

(** C3. Seeding looks at nothing but emptiness: whatever records a
    collection holds ([info], [owner] or [event] in particular), if it holds
    any then [ensure_seed_data] (whether it completes or fails on the way)
    inserts nothing into it: its records, and so their count, are the same
    afterwards. *)
Theorem seeding_skips_nonempty (w : world) (name : string) :
  records name w ≠ [] →
  records name (ensure_seed_data w).2 = records name w ∧
  length (records name (ensure_seed_data w).2) = length (records name w).
Proof.
  intros Hne.
  enough (keeps name ensure_seed_data w) as Hkeeps.
  { unfold keeps in Hkeeps. by rewrite Hkeeps. }
  unfold ensure_seed_data. apply keeps_bind; [done|].
  intros h w0 [= <- <-]. destruct (db w) as [d|]; [|done].
  assert (∀ w0, records name w0 = records name w → keeps name seed_info_step w0)
    as Hinfo.
  { intros w0 Hw0. apply seed_step_keeps; [by rewrite Hw0|].
    intros Hc. by apply preserves_create_document. }
  assert (∀ w0, records name w0 = records name w → keeps name seed_owners_step w0)
    as Howners.
  { intros w0 Hw0. apply seed_step_keeps; [by rewrite Hw0|].
    intros Hc. apply preserves_for_each.
    intros o. by apply preserves_create_document. }
  assert (∀ w0, records name w0 = records name w → keeps name seed_events_step w0)
    as Hevents.
  { intros w0 Hw0. apply seed_step_keeps; [by rewrite Hw0|].
    intros Hc. apply preserves_bind; [apply preserves_utcnow|].
    intros now. apply preserves_for_each.
    intros e. by apply preserves_create_document. }
  apply keeps_bind; [by apply Hinfo|].
  intros [] w1 Hrun1.
  assert (records name w1 = records name w) as H1.
  { specialize (Hinfo w eq_refl). unfold keeps in Hinfo. by rewrite Hrun1 in Hinfo. }
  apply keeps_bind; [by apply Howners|].
  intros [] w2 Hrun2. apply Hevents.
  specialize (Howners w1 H1). unfold keeps in Howners.
  rewrite Hrun2 in Howners. simpl in Howners. congruence.
Qed.

Lemma seeding_skips_nonempty_witness :
  records "event" (ensure_seed_data shuffled_world).2
    = records "event" shuffled_world ∧
  length (records "event" (ensure_seed_data shuffled_world).2)
    = length (records "event" shuffled_world).
Proof.
  apply (seeding_skips_nonempty shuffled_world "event").
  vm_compute. discriminate.
Defined.

(** On the sample store, whose events and info are not the seed content,
    seeding fills the empty owner collection and nothing else. *)
Example seeding_shuffled :
  let w' := (ensure_seed_data shuffled_world).2 in
  (length (records "info" w'), length (records "owner" w'),
   length (records "event" w')) = (2, 2, 3)%nat.
Proof. vm_compute. reflexivity. Qed.

(** ** Seeding a fresh store *)

Lemma served_reliable (w : world) : reliable w → served w = w.
Proof. unfold reliable, served. destruct w. simpl. by intros ->. Qed.

Lemma count_documents_reliable (name : string) (w : world) :
  is_Some (db w) → reliable w →
  count_documents name w = (Return (Z.of_nat (length (records name w))), w).
Proof.
  intros [d Hdb] Hw. rewrite (count_documents_run _ _ d Hdb (next_fault_nil _ Hw)).
  by rewrite (served_reliable _ Hw), (records_db _ _ _ Hdb).
Qed.

Lemma pop_id_to_dict (r : stored) :
  fields r !! "_id" = None → pop_id (to_dict r) = fields r.
Proof. intros Hid. unfold pop_id, to_dict. by rewrite delete_insert_id. Qed.

Lemma create_document_reliable (name : string) (data : document) (w : world) :
  is_Some (db w) → reliable w → data !! "_id" = None →
  ∃ w', create_document name data w = (Return tt, w') ∧ appended name data w w'.
Proof.
  intros [d Hdb] Hw Hid. unfold create_document, insert_one.
  rewrite bind_run. unfold utcnow at 1. rewrite bind_run.
  rewrite (driver_call_ok _ (set_tick (S (tick w)) w) d Hdb);
    [|by apply next_fault_nil].
  rewrite lookup_insert_ne, Hid by done.
  eexists. split; [reflexivity|].
  unfold appended, reliable, records. simpl. rewrite Hw, Hdb.
  split_and!; try done.
  - eexists. by rewrite collection_insert_eq.
  - intros n Hn. by apply collection_insert_ne.
Qed.

Lemma seed_info_step_reliable (w : world) :
  is_Some (db w) → reliable w →
  ∃ w1, seed_info_step w = (Return tt, w1) ∧
        reliable w1 ∧ is_Some (db w1) ∧ clock w1 = clock w ∧
        (tick w ≤ tick w1)%nat ∧
        ∀ n : string, n ≠ "info" → records n w1 = records n w.
Proof.
  intros Hdb Hw. unfold seed_info_step.
  rewrite bind_run, (count_documents_reliable _ _ Hdb Hw).
  destruct (_ =? 0).
  - destruct (create_document_reliable "info" seed_info w Hdb Hw eq_refl)
      as (w1 & -> & Hw1 & Hdb1 & Hclock & Htick & _ & Hframe).
    exists w1. split_and!; [done..|lia|done].
  - exists w. split_and!; [done..|lia|done].
Qed.

Lemma seed_owners_step_fresh (w : world) :
  is_Some (db w) → reliable w → records "owner" w = [] →
  ∃ (w2 : world) (i1 i2 : N),
    seed_owners_step w = (Return tt, w2) ∧
    reliable w2 ∧ is_Some (db w2) ∧ clock w2 = clock w ∧
    tick w2 = S (S (tick w)) ∧
    records "owner" w2 =
      [ Stored (VOid i1)
          (<["created_at" := VDate (clock w (tick w))]> seed_owner_lena);
        Stored (VOid i2)
          (<["created_at" := VDate (clock w (S (tick w)))]> seed_owner_max) ] ∧
    ∀ n : string, n ≠ "owner" → records n w2 = records n w.
Proof.
  intros Hdb Hw Hempty. unfold seed_owners_step.
  rewrite bind_run, (count_documents_reliable _ _ Hdb Hw), Hempty.
  simpl. rewrite bind_run.
  destruct (create_document_reliable "owner" seed_owner_lena w Hdb Hw eq_refl)
    as (wa & -> & Hwa & Hdba & Hca & Hta & [i1 Hra] & Hfa).
  rewrite bind_run.
  destruct (create_document_reliable "owner" seed_owner_max wa Hdba Hwa eq_refl)
    as (wb & -> & Hwb & Hdbb & Hcb & Htb & [i2 Hrb] & Hfb).
  exists wb, i1, i2. split_and!; [done..|congruence|lia| |].
  - by rewrite Hrb, Hra, Hempty, Hca, Hta.
  - intros n Hn. by rewrite Hfb, Hfa.
Qed.

Lemma seed_events_step_fresh (w : world) :
  is_Some (db w) → reliable w → records "event" w = [] →
  ∃ (w3 : world) (i1 i2 i3 : N) (t1 t2 t3 : Z),
    let base_date := replace_time 19 30 (clock w (tick w)) in
    seed_events_step w = (Return tt, w3) ∧
    reliable w3 ∧ is_Some (db w3) ∧
    records "event" w3 =
      [ Stored (VOid i1) (<["created_at" := VDate t1]> (seed_event_kabarett base_date));
        Stored (VOid i2) (<["created_at" := VDate t2]> (seed_event_improv base_date));
        Stored (VOid i3) (<["created_at" := VDate t3]> (seed_event_standup base_date)) ] ∧
    ∀ n : string, n ≠ "event" → records n w3 = records n w.
Proof.
  intros Hdb Hw Hempty. unfold seed_events_step.
  rewrite bind_run, (count_documents_reliable _ _ Hdb Hw), Hempty.
  simpl. rewrite bind_run. unfold utcnow at 1.
  set (base_date := replace_time 19 30 (clock w (tick w))).
  set (w0 := set_tick (S (tick w)) w).
  assert (is_Some (db w0)) as Hdb0 by done.
  assert (reliable w0) as Hw0 by done.
  rewrite bind_run.
  destruct (create_document_reliable "event" (seed_event_kabarett base_date) w0
              Hdb0 Hw0 eq_refl)
    as (wa & -> & Hwa & Hdba & Hca & Hta & [i1 Hra] & Hfa).
  rewrite bind_run.
  destruct (create_document_reliable "event" (seed_event_improv base_date) wa
              Hdba Hwa eq_refl)
    as (wb & -> & Hwb & Hdbb & Hcb & Htb & [i2 Hrb] & Hfb).
  rewrite bind_run.
  destruct (create_document_reliable "event" (seed_event_standup base_date) wb
              Hdbb Hwb eq_refl)
    as (wc & -> & Hwc & Hdbc & Hcc & Htc & [i3 Hrc] & Hfc).
  exists wc, i1, i2, i3. eexists _, _, _. split_and!; [done..| |].
  - rewrite Hrc, Hrb, Hra. unfold w0, records at 1. simpl.
    fold (records "event" w). by rewrite Hempty.
  - intros n Hn. by rewrite Hfc, Hfb, Hfa.
Qed.

Lemma before_dates (b : Z) (m n : Z) (d1 d2 : document) :
  sort_key "date" d1 = VDate (b + timedelta_days m) →
  sort_key "date" d2 = VDate (b + timedelta_days n) →
  m ≤ n → before "date" ASCENDING d1 d2 = true.
Proof.
  intros H1 H2 Hmn. unfold before. rewrite H1, H2.
  apply bson_le_date. unfold timedelta_days, microseconds_per_day. lia.
Qed.

(** C4. On a store whose owner and event collections are empty, over a
    connection that serves every call, [ensure_seed_data] completes, and
    afterwards: the event collection holds exactly three records, which
    [get_events] returns as "Kabarett: Wiener Schmäh",
    "Improv: Alles kann, nix muss", "Stand-up: Late Night Laughs" in that
    order, dated 7, 18 and 32 days after one base time (the day of a
    reading of the clock, at 19:30); and the owner collection holds exactly
    two records, which [get_owners] returns as "Lena Leitner" and
    "Max Maurer", the order of their insertion. *)
Theorem fresh_store_is_seeded (w : world) :
  is_Some (db w) → reliable w →
  records "owner" w = [] → records "event" w = [] →
  ∃ (w' : world) (k : nat) (events owners : list document),
    let base_date := replace_time 19 30 (clock w k) in
    (tick w ≤ k)%nat ∧
    ensure_seed_data w = (Return tt, w') ∧
    get_events w' = (Return events, served w') ∧
    Forall2 projection_of events (records "event" w') ∧
    (λ doc : document, doc !! "title") <$> events =
      [ Some (VStr "Kabarett: Wiener Schmäh");
        Some (VStr "Improv: Alles kann, nix muss");
        Some (VStr "Stand-up: Late Night Laughs") ] ∧
    (λ doc : document, doc !! "date") <$> events =
      [ Some (VDate (base_date + timedelta_days 7));
        Some (VDate (base_date + timedelta_days 18));
        Some (VDate (base_date + timedelta_days 32)) ] ∧
    get_owners w' = (Return owners, served w') ∧
    Forall2 projection_of owners (records "owner" w') ∧
    (λ doc : document, doc !! "name") <$> owners =
      [ Some (VStr "Lena Leitner"); Some (VStr "Max Maurer") ].
Proof.
  intros Hdb Hw Howner Hevent.
  destruct (seed_info_step_reliable w Hdb Hw)
    as (w1 & Hrun1 & Hw1 & Hdb1 & Hc1 & Ht1 & Hf1).
  destruct (seed_owners_step_fresh w1 Hdb1 Hw1)
    as (w2 & o1 & o2 & Hrun2 & Hw2 & Hdb2 & Hc2 & Ht2 & Hro & Hf2).
  { by rewrite Hf1. }
  destruct (seed_events_step_fresh w2 Hdb2 Hw2)
    as (w3 & e1 & e2 & e3 & t1 & t2 & t3 & Hrun3 & Hw3 & Hdb3 & Hre & Hf3).
  { by rewrite Hf2, Hf1. }
  rewrite Hc2, Hc1 in Hre. rewrite Hc1 in Hro.
  rewrite <- (Hf3 "owner") in Hro by done.
  destruct Hdb3 as [d3 Hdb3].
  pose proof (next_fault_nil _ Hw3) as Hnf3.
  exists w3, (tick w2). eexists _, _.
  rewrite (get_events_run _ _ Hdb3 Hnf3), (get_owners_run _ _ Hdb3 Hnf3).
  rewrite <- !(records_db _ _ _ Hdb3), Hre, Hro.
  split_and!.
  - lia.
  - unfold ensure_seed_data. rewrite handle_run.
    destruct Hdb as [d ->].
    by rewrite bind_run, Hrun1, bind_run, Hrun2.
  - unfold query. rewrite sort_by_sorted; [reflexivity|].
    repeat constructor; by eapply before_dates.
  - simpl. repeat constructor; apply pop_id_projection.
  - reflexivity.
  - reflexivity.
  - reflexivity.
  - simpl. repeat constructor; apply pop_id_projection.
  - reflexivity.
Qed.

Lemma fresh_store_is_seeded_witness :
  ∃ (w' : world) (k : nat) (events owners : list document),
    let base_date := replace_time 19 30 (clock fresh_world k) in
    (tick fresh_world ≤ k)%nat ∧
    ensure_seed_data fresh_world = (Return tt, w') ∧
    get_events w' = (Return events, served w') ∧
    Forall2 projection_of events (records "event" w') ∧
    (λ doc : document, doc !! "title") <$> events =
      [ Some (VStr "Kabarett: Wiener Schmäh");
        Some (VStr "Improv: Alles kann, nix muss");
        Some (VStr "Stand-up: Late Night Laughs") ] ∧
    (λ doc : document, doc !! "date") <$> events =
      [ Some (VDate (base_date + timedelta_days 7));
        Some (VDate (base_date + timedelta_days 18));
        Some (VDate (base_date + timedelta_days 32)) ] ∧
    get_owners w' = (Return owners, served w') ∧
    Forall2 projection_of owners (records "owner" w') ∧
    (λ doc : document, doc !! "name") <$> owners =
      [ Some (VStr "Lena Leitner"); Some (VStr "Max Maurer") ].
Proof.
  apply (fresh_store_is_seeded fresh_world); [by eexists|reflexivity..].
Defined.

(** The fresh sample store after startup: one info record, two owners,
    three events; the clock was read seven times, and the events are dated
    from 19:30 on 6 November 2025. *)
Example startup_fresh_world :
  let w' := (startup_event fresh_world).2 in
  (length (records "info" w'), length (records "owner" w'),
   length (records "event" w'), tick w') = (1, 2, 3, 7)%nat ∧
  field_of "date" <$> records "event" w' =
    [VDate 1763062200000000; VDate 1764012600000000; VDate 1765222200000000].
Proof. split; vm_compute; reflexivity. Qed.

(** Seeding twice is seeding once. *)
Example startup_twice :
  let w1 := (startup_event fresh_world).2 in
  let w2 := (startup_event w1).2 in
  db w2 = db w1.
Proof. vm_compute. reflexivity. Qed.

Lemma test_database_always_answers_witness :
  ∃ resp : payload,
    (test_database unreachable_world).1 = Return resp ∧
    resp !! "database" =
      Some (PStr "⚠️  Connected but Error: localhost:27017: [Errno 111] Connection refused, T") ∧
    resp !! "collections" = Some (PList []) ∧
    dom resp = diagnostic_keys.
Proof.
  destruct (test_database_always_answers unreachable_world)
    as (resp & w' & names & status & Hrun & _ & Hdom & Hnames & _ & Hstatus
        & _ & Hfault & _).
  destruct (Hfault "localhost:27017: [Errno 111] Connection refused, Timeout: 30s")
    as [Hs Hn]; [by eexists|reflexivity|].
  exists resp. rewrite Hrun, Hnames, Hstatus, Hs, Hn. by split_and!.
Defined.

(** ** Further runs of the sample worlds *)

(** The listing does not depend on the order of insertion. *)
Example get_events_reshuffled :
  (get_events reshuffled_world).1 = (get_events shuffled_world).1.
Proof. vm_compute. reflexivity. Qed.

(** Of two info records created one after the other, the later one is the
    current one. *)
Example get_info_after_two_creations :
  (get_info (two_infos fresh_world).2).1
  = Return {[ "name" := VStr "Kabarett & Impro Wien";
              "created_at" := VDate 1762423200004170 ]}.
Proof. vm_compute. reflexivity. Qed.

(** A failed seeding leaves the service running on what there is: here the
    connection dropped before the first insertion, and the venue record is
    not found. *)
Example flaky_startup_then_get_info :
  let w' := (startup_event flaky_world).2 in
  (startup_event flaky_world).1 = Return tt ∧
  respond (get_info w').1 = Error 404 "Info not found" ∧
  respond (get_owners w').1 = Content 200 [].
Proof. vm_compute. by split_and!. Qed.

(** * Further properties of [src/main.py] *)

(** ** What the read endpoints leave alone *)

Lemma content_endpoints_world (w : world) :
  ((get_info w).2 = w ∨ (get_info w).2 = served w) ∧
  ((get_owners w).2 = w ∨ (get_owners w).2 = served w) ∧
  ((get_events w).2 = w ∨ (get_events w).2 = served w).
Proof.
  destruct (db w) as [d|] eqn:Hdb.
  2: { unfold get_info, get_owners, get_events.
       rewrite !handle_run, Hdb. split_and!; by left. }
  destruct (next_fault w) as [msg|] eqn:Hnf.
  - destruct (content_endpoints_fault w d msg Hdb Hnf) as (-> & -> & ->).
    split_and!; by right.
  - rewrite (get_info_run _ _ Hdb Hnf), (get_owners_run _ _ Hdb Hnf),
      (get_events_run _ _ Hdb Hnf).
    split_and!; by right.
Qed.

Lemma test_database_world (w : world) :
  (test_database w).2 = w ∨ (test_database w).2 = served w.
Proof.
  destruct (db w) as [d|] eqn:Hdb.
  - destruct (next_fault w) as [msg|] eqn:Hnf.
    + rewrite (test_database_fault w d msg Hdb Hnf). by right.
    + rewrite (test_database_connected w d Hdb Hnf). by right.
  - rewrite (test_database_absent w Hdb). by left.
Qed.

(** X1. The four read endpoints never write: whatever they answer (content,
    404, a server error), the database behind the handle, the clock and the
    environment are afterwards what they were before; deleting ["_id"] from
    a returned document does not reach the stored record.  So a content
    endpoint asked twice over a connection that serves both calls answers
    the same. *)
Theorem reads_leave_the_store (w : world) :
  (∀ w', w' ∈ [(get_info w).2; (get_owners w).2; (get_events w).2;
               (test_database w).2; (read_root w).2] →
         db w' = db w ∧ clock w' = clock w ∧ tick w' = tick w ∧
         environ w' = environ w) ∧
  (next_fault w = None → next_fault (served w) = None →
   (get_info (get_info w).2).1 = (get_info w).1 ∧
   (get_owners (get_owners w).2).1 = (get_owners w).1 ∧
   (get_events (get_events w).2).1 = (get_events w).1).
Proof.
  pose proof (content_endpoints_world w) as (Hinfo & Howners & Hevents).
  pose proof (test_database_world w) as Htest.
  split.
  - intros w' Hw'. rewrite !elem_of_cons, elem_of_nil in Hw'.
    destruct Hw' as [->|[->|[->|[->|[->|[]]]]]];
      [destruct Hinfo as [->| ->]|destruct Howners as [->| ->]
      |destruct Hevents as [->| ->]|destruct Htest as [->| ->]|]; done.
  - intros Hnf Hnf'. destruct (db w) as [d|] eqn:Hdb.
    + assert (db (served w) = Some d) as Hdb' by done.
      rewrite (get_info_run _ _ Hdb Hnf), (get_owners_run _ _ Hdb Hnf),
        (get_events_run _ _ Hdb Hnf). simpl.
      by rewrite (get_info_run _ _ Hdb' Hnf'), (get_owners_run _ _ Hdb' Hnf'),
        (get_events_run _ _ Hdb' Hnf').
    + unfold get_info, get_owners, get_events. rewrite !handle_run, Hdb. simpl.
      by rewrite ?handle_run, ?Hdb.
Qed.

Lemma reads_leave_the_store_witness :
  (db (get_events shuffled_world).2 = db shuffled_world ∧
   clock (get_events shuffled_world).2 = clock shuffled_world ∧
   tick (get_events shuffled_world).2 = tick shuffled_world ∧
   environ (get_events shuffled_world).2 = environ shuffled_world) ∧
  (get_info (get_info shuffled_world).2).1 = (get_info shuffled_world).1 ∧
  (get_owners (get_owners shuffled_world).2).1 = (get_owners shuffled_world).1 ∧
  (get_events (get_events shuffled_world).2).1 = (get_events shuffled_world).1.
Proof.
  pose proof (reads_leave_the_store shuffled_world) as [Hsame Hagain].
  split.
  - apply Hsame. rewrite !elem_of_cons. auto.
  - apply Hagain; reflexivity.
Defined.

(** ** Store errors on the content endpoints *)

(** X2. The content endpoints catch nothing: with the handle present, the
    exception the driver raises on the read is the exception the handler
    raises, and the client is answered with a plain server error (status
    500), not with an [HTTPException] of the handler's own and not with
    content. *)
Theorem store_error_propagates (w : world) (d : Database) (msg : string) :
  db w = Some d → next_fault w = Some msg →
  (get_info w).1 = Raise (Exception msg) ∧
  (get_owners w).1 = Raise (Exception msg) ∧
  (get_events w).1 = Raise (Exception msg) ∧
  respond (get_info w).1 = Error 500 "Internal Server Error" ∧
  respond (get_owners w).1 = Error 500 "Internal Server Error" ∧
  respond (get_events w).1 = Error 500 "Internal Server Error".
Proof.
  intros Hdb Hnf.
  destruct (content_endpoints_fault w d msg Hdb Hnf) as (-> & -> & ->).
  by split_and!.
Qed.

Lemma store_error_propagates_witness :
  let msg := "localhost:27017: [Errno 111] Connection refused, Timeout: 30s" in
  (get_info unreachable_world).1 = Raise (Exception msg) ∧
  (get_owners unreachable_world).1 = Raise (Exception msg) ∧
  (get_events unreachable_world).1 = Raise (Exception msg) ∧
  respond (get_info unreachable_world).1 = Error 500 "Internal Server Error" ∧
  respond (get_owners unreachable_world).1 = Error 500 "Internal Server Error" ∧
  respond (get_events unreachable_world).1 = Error 500 "Internal Server Error".
Proof.
  apply (store_error_propagates unreachable_world shuffled_db); reflexivity.
Defined.

(** X3. The statuses a content endpoint can answer with: [get_owners] and
    [get_events] answer 200 or 500 and never 404; [get_info] answers 200,
    404 or 500.  A 500 of a handler's own making comes only from the absent
    handle. *)
Theorem content_statuses (w : world) :
  status_of (respond (get_owners w).1) ∈ [200; 500] ∧
  status_of (respond (get_events w).1) ∈ [200; 500] ∧
  status_of (respond (get_info w).1) ∈ [200; 404; 500] ∧
  (∀ code detail,
     (get_info w).1 = Raise (HTTPException code detail) ∨
     (get_owners w).1 = Raise (HTTPException code detail) ∨
     (get_events w).1 = Raise (HTTPException code detail) →
     (code = 500 ∧ detail = "Database not available" ∧ db w = None) ∨
     (code = 404 ∧ detail = "Info not found" ∧ is_Some (db w))).
Proof.
  destruct (db w) as [d|] eqn:Hdb.
  2: { unfold get_info, get_owners, get_events. rewrite !handle_run, Hdb. simpl.
       split_and!; [set_solver..|].
       intros code detail [H|[H|H]]; injection H as <- <-; by left. }
  destruct (next_fault w) as [msg|] eqn:Hnf.
  { destruct (content_endpoints_fault w d msg Hdb Hnf) as (-> & -> & ->). simpl.
    split_and!; [set_solver..|]. by intros code detail [H|[H|H]]. }
  rewrite (get_info_run _ _ Hdb Hnf), (get_owners_run _ _ Hdb Hnf),
    (get_events_run _ _ Hdb Hnf). simpl.
  destruct (head _) as [doc|] eqn:Hhd.
  - apply query_head in Hhd as (r & _ & -> & _).
    destruct (negb _); simpl; (split_and!; [set_solver..|]);
      intros code detail [H|[H|H]]; try done.
    injection H as <- <-. right. split_and!; [done..|by eexists].
  - simpl. split_and!; [set_solver..|].
    intros code detail [H|[H|H]]; try done.
    injection H as <- <-. right. split_and!; [done..|by eexists].
Qed.

Lemma content_statuses_witness :
  (404 = 500 ∧ "Info not found" = "Database not available" ∧ db fresh_world = None) ∨
  (404 = 404 ∧ "Info not found" = "Info not found" ∧ is_Some (db fresh_world)).
Proof.
  apply (proj2 (proj2 (proj2 (content_statuses fresh_world)))).
  left. reflexivity.
Defined.

(** ** What the diagnostic object tells *)

Lemma connected_response_lookups (w : world) :
  connected_response w !! "backend" = Some (PStr "✅ Running") ∧
  connected_response w !! "connection_status" = Some (PStr "Connected") ∧
  connected_response w !! "database_url" =
    Some (PStr (if nonempty (environ w !! "DATABASE_URL")
                then "✅ Set" else "❌ Not Set")) ∧
  connected_response w !! "database_name" =
    Some (PStr (if nonempty (environ w !! "DATABASE_NAME")
                then "✅ Set" else "❌ Not Set")).
Proof.
  unfold connected_response. split_and!.
  - by rewrite !lookup_insert_ne by done.
  - by rewrite lookup_insert_eq.
  - by rewrite !lookup_insert_ne, lookup_insert_eq by done.
  - by rewrite lookup_insert_ne, lookup_insert_eq by done.
Qed.

(** The diagnostic object, whatever the world. *)
Lemma test_database_payload (w : world) :
  ∃ resp, (test_database w).1 = Return resp ∧
    match db w with
    | None =>
        resp = <["database" := PStr "⚠️  Available but not initialized"]>
                 initial_response
    | Some d =>
        ∃ v1 v2, resp = <["database" := v1]> (connected_response w) ∨
                 resp = <["database" := v1]>
                          (<["collections" := v2]> (connected_response w))
    end.
Proof.
  destruct (db w) as [d|] eqn:Hdb.
  - destruct (next_fault w) as [msg|] eqn:Hnf.
    + rewrite (test_database_fault w d msg Hdb Hnf). eexists. split; [done|].
      eexists _, PNone. by left.
    + rewrite (test_database_connected w d Hdb Hnf). eexists. split; [done|].
      eexists _, _. by right.
  - rewrite (test_database_absent w Hdb). by eexists.
Qed.

Lemma nonempty_spec (o : option string) :
  nonempty o = true ↔ ∃ v, o = Some v ∧ v ≠ "".
Proof.
  destruct o as [[|c v]|]; simpl; split; try done.
  - by intros (v & [= <-] & Hv).
  - intros _. by eexists.
  - by intros (v & [=] & _).
Qed.

(** X4. What the diagnostic object says of the process and its settings.
    [backend] is always "✅ Running".  With a handle, [connection_status] is
    "Connected" even when listing the collections failed, and
    [database_url] and [database_name] say "✅ Set" when the environment
    has a non-empty [DATABASE_URL], [DATABASE_NAME], and "❌ Not Set"
    otherwise (an empty value counts as not set).  Without a handle,
    [connection_status] is "Not Connected" and the two settings are
    reported as [None], whatever the environment holds. *)
Theorem diagnostic_settings (w : world) :
  ∃ resp : payload,
    (test_database w).1 = Return resp ∧
    resp !! "backend" = Some (PStr "✅ Running") ∧
    (is_Some (db w) →
     resp !! "connection_status" = Some (PStr "Connected") ∧
     resp !! "database_url" =
       Some (PStr (if nonempty (environ w !! "DATABASE_URL")
                   then "✅ Set" else "❌ Not Set")) ∧
     resp !! "database_name" =
       Some (PStr (if nonempty (environ w !! "DATABASE_NAME")
                   then "✅ Set" else "❌ Not Set"))) ∧
    (db w = None →
     resp !! "connection_status" = Some (PStr "Not Connected") ∧
     resp !! "database_url" = Some PNone ∧
     resp !! "database_name" = Some PNone) ∧
    (∀ o : option string, nonempty o = true ↔ ∃ v, o = Some v ∧ v ≠ "").
Proof.
  destruct (test_database_payload w) as (resp & Hrun & Hresp).
  exists resp. split; [exact Hrun|]. clear Hrun.
  pose proof (connected_response_lookups w) as (Hb & Hc & Hu & Hn).
  destruct (db w) as [d|] eqn:Hdb.
  - assert (∀ k, "database" ≠ k → "collections" ≠ k →
                 resp !! k = connected_response w !! k) as Hk.
    { intros k Hk1 Hk2. destruct Hresp as (v1 & v2 & [-> | ->]);
        rewrite ?lookup_insert_ne by assumption; reflexivity. }
    rewrite !Hk by discriminate.
    split; [exact Hb|]. split; [intros _; by split_and!|].
    split; [discriminate|apply nonempty_spec].
  - subst resp. split; [reflexivity|]. split; [by intros []|].
    split; [intros _; split_and!; reflexivity|apply nonempty_spec].
Qed.

Lemma diagnostic_settings_witness :
  (∃ resp : payload,
     (test_database configured_world).1 = Return resp ∧
     resp !! "connection_status" = Some (PStr "Connected") ∧
     resp !! "database_url" = Some (PStr "✅ Set") ∧
     resp !! "database_name" = Some (PStr "❌ Not Set")) ∧
  (∃ resp : payload,
     (test_database detached_world).1 = Return resp ∧
     resp !! "connection_status" = Some (PStr "Not Connected") ∧
     resp !! "database_url" = Some PNone ∧
     resp !! "database_name" = Some PNone).
Proof.
  split.
  - destruct (diagnostic_settings configured_world)
      as (resp & Hrun & _ & Hwith & _).
    destruct Hwith as (Hstatus & Hurl & Hname); [by eexists|].
    exists resp. by split_and!.
  - destruct (diagnostic_settings detached_world)
      as (resp & Hrun & _ & _ & Hwithout & _).
    destruct Hwithout as (Hstatus & Hurl & Hname); [reflexivity|].
    exists resp. by split_and!.
Defined.

(** X5. The collection names in the diagnostic object.  With a handle and
    the listing answered, [collections] holds the first ten of the names
    the database lists: no name twice, every name that of a collection of
    the database, and all of them when the database has at most ten.  When
    the listing fails or the handle is absent, [collections] is the empty
    list. *)
Theorem diagnostic_collections (w : world) :
  ∃ (resp : payload) (names : list string),
    (test_database w).1 = Return resp ∧
    resp !! "collections" = Some (PList names) ∧
    NoDup names ∧
    (∀ name, name ∈ names → name ∈ collection_names w) ∧
    (next_fault w = None → (size (collection_names w) ≤ 10)%nat →
     ∀ name, name ∈ collection_names w → name ∈ names) ∧
    (next_fault w = None →
     length names = (size (collection_names w) `min` 10)%nat) ∧
    (db w = None ∨ is_Some (next_fault w) → names = []).
Proof.
  unfold collection_names. destruct (db w) as [d|] eqn:Hdb.
  - destruct (next_fault w) as [msg|] eqn:Hnf.
    + rewrite (test_database_fault w d msg Hdb Hnf). eexists _, [].
      split; [reflexivity|]. split.
      { rewrite lookup_insert_ne by discriminate.
        apply connected_response_collections. }
      split; [constructor|]. split; [by intros name Hin%elem_of_nil|].
      split; [discriminate|]. split; [discriminate|reflexivity].
    + rewrite (test_database_connected w d Hdb Hnf).
      set (all := elements (dom (collections d))).
      eexists. exists (take 10 all). split; [reflexivity|]. split.
      { rewrite lookup_insert_ne by discriminate. apply lookup_insert_eq. }
      assert (length all = size (dom (collections d))) as Hlen by done.
      split; [apply (sublist_NoDup _ all); [apply NoDup_elements|apply sublist_take]|]. split.
      { intros name Hin%elem_of_take. destruct Hin as (i & Hi & _).
        apply elem_of_elements. by eapply list_elem_of_lookup_2. }
      split.
      { intros _ Hsize name Hin. rewrite take_ge by lia.
        by apply elem_of_elements. }
      split; [intros _; rewrite length_take; lia|].
      intros [[=]|[? [=]]].
  - rewrite (test_database_absent w Hdb). eexists _, [].
    split; [reflexivity|]. split.
    { rewrite lookup_insert_ne by discriminate.
      apply initial_response_collections. }
    split; [constructor|]. split; [by intros name Hin%elem_of_nil|].
    split; [intros _ _ name Hin; by apply elem_of_empty in Hin|].
    split; [intros _; by rewrite size_empty|reflexivity].
Qed.

Lemma diagnostic_collections_witness :
  (∃ names : list string,
     (∃ resp, (test_database shuffled_world).1 = Return resp ∧
              resp !! "collections" = Some (PList names)) ∧
     length names = 2%nat ∧ "event" ∈ names ∧ "info" ∈ names ∧
     ∀ name, name ∈ names → name ∈ collection_names shuffled_world) ∧
  (∃ resp, (test_database unreachable_world).1 = Return resp ∧
           resp !! "collections" = Some (PList [])).
Proof.
  split.
  - destruct (diagnostic_collections shuffled_world)
      as (resp & names & Hrun & Hnames & _ & Hin & Hall & Hlen & _).
    exists names. split; [exists resp; split; assumption|].
    assert (next_fault shuffled_world = None) as Hnf by reflexivity.
    assert (size (collection_names shuffled_world) = 2%nat) as Hsize
      by (vm_compute; reflexivity).
    split; [rewrite (Hlen Hnf), Hsize; reflexivity|].
    split; [|split; [|exact Hin]];
      (apply (Hall Hnf); [rewrite Hsize; lia|vm_compute; reflexivity]).
  - destruct (diagnostic_collections unreachable_world)
      as (resp & names & Hrun & Hnames & _ & _ & _ & _ & Hnone).
    exists resp. split; [exact Hrun|].
    rewrite Hnames, Hnone; [reflexivity|]. right. by eexists.
Defined.

(** ** Cutting the exception message *)

Lemma append_cons (c : Ascii.ascii) (s rest : string) :
  String c s +:+ rest = String c (s +:+ rest).
Proof. reflexivity. Qed.

Lemma slice_to_prefix (n : nat) (s : string) :
  ∃ rest, s = slice_to n s +:+ rest.
Proof.
  revert n. induction s as [|c s IH]; intros n; simpl; [by exists ""|].
  destruct (continuation c).
  - destruct (IH n) as [rest Hrest]. exists rest.
    by rewrite append_cons, <- Hrest.
  - destruct n as [|n].
    + by eexists.
    + destruct (IH n) as [rest Hrest]. exists rest.
      by rewrite append_cons, <- Hrest.
Qed.

Lemma slice_to_code_points (n : nat) (s : string) :
  (code_points (slice_to n s) ≤ n)%nat.
Proof.
  revert n. induction s as [|c s IH]; intros n; simpl; [lia|].
  destruct (continuation c) eqn:Hc; simpl; rewrite ?Hc; [apply IH|].
  destruct n as [|n]; simpl; rewrite ?Hc; [lia|]. specialize (IH n). lia.
Qed.

Lemma slice_to_short (n : nat) (s : string) :
  (code_points s ≤ n)%nat → slice_to n s = s.
Proof.
  revert n. induction s as [|c s IH]; intros n; simpl; [done|].
  destruct (continuation c); intros Hn.
  - by rewrite IH.
  - destruct n as [|n]; [lia|]. rewrite IH; [done|lia].
Qed.

Lemma slice_to_long (n : nat) (s : string) :
  (n ≤ code_points s)%nat → code_points (slice_to n s) = n.
Proof.
  revert n. induction s as [|c s IH]; intros n; simpl; [lia|].
  destruct (continuation c) eqn:Hc; simpl; rewrite ?Hc; [apply IH|].
  destruct n as [|n]; simpl; rewrite ?Hc; [done|].
  intros Hn. rewrite IH; lia.
Qed.

Lemma append_same_inv (s rest : string) : s = s +:+ rest → rest = "".
Proof.
  induction s as [|c s IH]; [done|].
  rewrite append_cons. intros [= H]. by apply IH.
Qed.

(** X6. When listing the collections fails, the diagnostic object shows
    under [database] the fixed text "Connected but Error: " followed by the
    beginning of the exception's message: at most 50 characters (code
    points) of it, never cutting inside a character, and the whole message
    when it has no more than 50. *)
Theorem diagnostic_error_text (w : world) (d : Database) (msg : string) :
  db w = Some d → next_fault w = Some msg →
  ∃ (resp : payload) (shown rest : string),
    (test_database w).1 = Return resp ∧
    resp !! "database" = Some (PStr ("⚠️  Connected but Error: " +:+ shown)) ∧
    msg = shown +:+ rest ∧
    (code_points shown ≤ 50)%nat ∧
    (code_points msg ≤ 50 → rest = "")%nat ∧
    (50 < code_points msg → code_points shown = 50)%nat.
Proof.
  intros Hdb Hnf. rewrite (test_database_fault w d msg Hdb Hnf).
  destruct (slice_to_prefix 50 msg) as [rest Hrest].
  eexists. exists (slice_to 50 msg), rest. split; [reflexivity|].
  split; [apply lookup_insert_eq|]. split; [exact Hrest|].
  split; [apply slice_to_code_points|]. split.
  - intros Hshort. rewrite (slice_to_short _ _ Hshort) in Hrest.
    by apply append_same_inv in Hrest.
  - intros Hlong. apply slice_to_long. lia.
Qed.

Lemma diagnostic_error_text_witness :
  ∃ (resp : payload) (shown rest : string),
    (test_database unreachable_world).1 = Return resp ∧
    resp !! "database" = Some (PStr ("⚠️  Connected but Error: " +:+ shown)) ∧
    "localhost:27017: [Errno 111] Connection refused, Timeout: 30s"
      = shown +:+ rest ∧
    (code_points shown ≤ 50)%nat ∧
    (code_points "localhost:27017: [Errno 111] Connection refused, Timeout: 30s" ≤ 50
     → rest = "")%nat ∧
    (50 < code_points "localhost:27017: [Errno 111] Connection refused, Timeout: 30s"
     → code_points shown = 50)%nat.
Proof.
  apply (diagnostic_error_text unreachable_world shuffled_db); reflexivity.
Defined.

(** ** Seeding, step by step *)

Lemma records_same_db (name : string) (w w' : world) :
  db w' = db w → records name w' = records name w.
Proof. unfold records. by intros ->. Qed.

Lemma create_document_run (name : string) (data : document) (w : world)
    (d : Database) :
  db w = Some d → next_fault w = None → data !! "_id" = None →
  create_document name data w = (Return tt, created name data d w).
Proof.
  intros Hdb Hnf Hid. unfold create_document, insert_one.
  rewrite bind_run. unfold utcnow at 1. rewrite bind_run.
  rewrite (driver_call_ok _ (set_tick (S (tick w)) w) d Hdb Hnf).
  by rewrite lookup_insert_ne, Hid by done.
Qed.

Lemma create_document_fault (name : string) (data : document) (w : world)
    (d : Database) (msg : string) :
  db w = Some d → next_fault w = Some msg →
  create_document name data w
    = (Raise (Exception msg), served (set_tick (S (tick w)) w)).
Proof.
  intros Hdb Hnf. unfold create_document, insert_one.
  rewrite bind_run. unfold utcnow at 1. rewrite bind_run.
  by rewrite (driver_call_fault _ (set_tick (S (tick w)) w) d msg Hdb Hnf).
Qed.

Lemma driver_call_db (absent : string) (w : world) :
  db (driver_call absent w).2 = db w.
Proof.
  unfold driver_call. destruct (db w) eqn:Hdb; [|done].
  by destruct (next_fault w).
Qed.

(** A creation that returns has left its document in the collection. *)
Lemma create_document_returns (name : string) (data : document) (w w' : world) :
  create_document name data w = (Return tt, w') → records name w' ≠ [].
Proof.
  unfold create_document, insert_one.
  rewrite bind_run. unfold utcnow at 1. rewrite bind_run.
  destruct (driver_call _ _) as [[d|e] w1] eqn:Hcall; [|done].
  apply driver_call_returns in Hcall as (Hdb & _ & ->).
  unfold put_db. intros [= <-]. unfold records, set_db, db.
  rewrite collection_insert_eq. by destruct (collection d name).
Qed.

Lemma for_each_create_returns (name : string) (l : list document) (w w' : world) :
  l ≠ [] ∨ records name w ≠ [] →
  for_each l (create_document name) w = (Return tt, w') →
  records name w' ≠ [].
Proof.
  revert w. induction l as [|data l IH]; intros w Hne; simpl.
  - intros [= <-]. by destruct Hne.
  - rewrite bind_run.
    destruct (create_document name data w) as [[[]|e] w1] eqn:Hrun; [|done].
    apply IH. right. by eapply create_document_returns.
Qed.

(** A seeding step that returns leaves its collection with records. *)
Lemma seed_step_returns (c : string) (body : M unit) (w w' : world) :
  (∀ w0 w1, body w0 = (Return tt, w1) → records c w1 ≠ []) →
  (n ← count_documents c; if n =? 0 then body else mret tt) w = (Return tt, w') →
  records c w' ≠ [].
Proof.
  intros Hbody. unfold count_documents. rewrite !bind_run.
  destruct (driver_call not_subscriptable w) as [[d|e] w1] eqn:Hcall; [|done].
  apply driver_call_returns in Hcall as (Hdb & _ & ->).
  cbv beta iota delta [mret ST_ret].
  destruct (_ =? 0) eqn:Hn.
  - apply Hbody.
  - intros [= <-]. rewrite records_served, (records_db _ _ _ Hdb).
    intros Hempty. by rewrite Hempty in Hn.
Qed.

(** A seeding step on a collection with records asks for the count and
    does nothing else. *)
Lemma seed_step_skips (c : string) (body : M unit) (w : world) :
  records c w ≠ [] →
  db ((n ← count_documents c; if n =? 0 then body else mret tt) w).2 = db w.
Proof.
  intros Hne. unfold count_documents. rewrite !bind_run.
  destruct (driver_call not_subscriptable w) as [[d|e] w1] eqn:Hcall.
  - apply driver_call_returns in Hcall as (Hdb & _ & ->).
    rewrite (records_db _ _ _ Hdb) in Hne.
    cbv beta iota delta [mret ST_ret].
    destruct (collection d c); [done|]. done.
  - pose proof (driver_call_db not_subscriptable w) as Hd.
    by rewrite Hcall in Hd.
Qed.

Lemma seed_steps_return (w w' : world) :
  (seed_info_step w = (Return tt, w') → records "info" w' ≠ []) ∧
  (seed_owners_step w = (Return tt, w') → records "owner" w' ≠ []) ∧
  (seed_events_step w = (Return tt, w') → records "event" w' ≠ []).
Proof.
  split_and!; apply seed_step_returns.
  - intros w0 w1. apply create_document_returns.
  - intros w0 w1. by apply for_each_create_returns; left.
  - intros w0 w1. rewrite bind_run. unfold utcnow at 1.
    by apply for_each_create_returns; left.
Qed.

Lemma seed_steps_keep (name : string) (w : world) :
  records name w ≠ [] →
  keeps name seed_info_step w ∧ keeps name seed_owners_step w ∧
  keeps name seed_events_step w.
Proof.
  intros Hne. split_and!; (apply seed_step_keeps; [done|]); intros Hc.
  - by apply preserves_create_document.
  - apply preserves_for_each. intros o. by apply preserves_create_document.
  - apply preserves_bind; [apply preserves_utcnow|].
    intros now. apply preserves_for_each.
    intros e. by apply preserves_create_document.
Qed.

(** Seeding that returns normally over a handle has left none of the three
    collections empty. *)
Lemma seeding_returns_nonempty (w w' : world) :
  is_Some (db w) → ensure_seed_data w = (Return tt, w') →
  records "info" w' ≠ [] ∧ records "owner" w' ≠ [] ∧ records "event" w' ≠ [].
Proof.
  intros [d Hdb]. unfold ensure_seed_data. rewrite handle_run, Hdb, bind_run.
  destruct (seed_info_step w) as [[[]|e] w1] eqn:Hrun1; [|done].
  rewrite bind_run.
  destruct (seed_owners_step w1) as [[[]|e] w2] eqn:Hrun2; [|done].
  intros Hrun3.
  pose proof (proj1 (seed_steps_return w w1) Hrun1) as Hinfo.
  pose proof (proj1 (proj2 (seed_steps_return w1 w2)) Hrun2) as Howner.
  pose proof (proj2 (proj2 (seed_steps_return w2 w')) Hrun3) as Hevent.
  assert (records "info" w2 = records "info" w1) as Hi2.
  { destruct (seed_steps_keep "info" w1 Hinfo) as (_ & Hk & _).
    unfold keeps in Hk. by rewrite Hrun2 in Hk. }
  assert (records "info" w' = records "info" w2) as Hi3.
  { destruct (seed_steps_keep "info" w2) as (_ & _ & Hk); [by rewrite Hi2|].
    unfold keeps in Hk. by rewrite Hrun3 in Hk. }
  assert (records "owner" w' = records "owner" w2) as Ho3.
  { destruct (seed_steps_keep "owner" w2 Howner) as (_ & _ & Hk).
    unfold keeps in Hk. by rewrite Hrun3 in Hk. }
  split_and!; [by rewrite Hi3, Hi2|by rewrite Ho3|done].
Qed.

(** Seeding a store whose three collections have records changes nothing in
    the database. *)
Lemma seeding_skips_all (w : world) :
  records "info" w ≠ [] → records "owner" w ≠ [] → records "event" w ≠ [] →
  db (ensure_seed_data w).2 = db w.
Proof.
  intros Hinfo Howner Hevent. unfold ensure_seed_data. rewrite handle_run.
  destruct (db w) as [d|] eqn:Hdb; [|by simpl]. rewrite <- Hdb.
  rewrite bind_run.
  pose proof (seed_step_skips "info" (create_document "info" seed_info) w Hinfo)
    as H1. fold seed_info_step in H1.
  destruct (seed_info_step w) as [[[]|e] w1] eqn:Hrun1; simpl in H1; [|done].
  rewrite bind_run.
  pose proof (seed_step_skips "owner"
                (for_each seed_owners (create_document "owner")) w1) as H2.
  fold seed_owners_step in H2. rewrite (records_same_db _ _ _ H1) in H2.
  specialize (H2 Howner).
  destruct (seed_owners_step w1) as [[[]|e] w2] eqn:Hrun2; simpl in H2;
    [|simpl; congruence].
  assert (db w2 = db w) as Hdb2 by congruence.
  pose proof (seed_step_skips "event"
                (now ← utcnow;
                 for_each (seed_events (replace_time 19 30 now))
                          (create_document "event")) w2) as H3.
  fold seed_events_step in H3. rewrite (records_same_db _ _ _ Hdb2) in H3.
  by rewrite (H3 Hevent).
Qed.

(** ** After seeding *)

(** X7. Seeding that returns normally over a handle (whatever content it
    found, and whichever calls the connection served) leaves none of the
    three collections empty.  So once startup seeding has completed,
    [get_info] answers with a record and not with 404, and [get_owners] and
    [get_events] answer with non-empty lists, whenever the store answers
    the read. *)
Theorem seeded_store_answers (w w1 : world) :
  is_Some (db w) → ensure_seed_data w = (Return tt, w1) →
  (records "info" w1 ≠ [] ∧ records "owner" w1 ≠ [] ∧ records "event" w1 ≠ []) ∧
  ∀ w2, db w2 = db w1 → next_fault w2 = None →
    ∃ (doc : document) (owners events : list document),
      get_info w2 = (Return doc, served w2) ∧
      get_owners w2 = (Return owners, served w2) ∧ owners ≠ [] ∧
      get_events w2 = (Return events, served w2) ∧ events ≠ [].
Proof.
  intros Hdb Hrun.
  destruct (seeding_returns_nonempty w w1 Hdb Hrun) as (Hinfo & Howner & Hevent).
  split; [done|]. intros w2 Hsame Hnf.
  rewrite <- !(records_same_db _ _ _ Hsame) in *.
  destruct (db w2) as [d|] eqn:Hdb2.
  2: { unfold records in Hinfo. by rewrite Hdb2 in Hinfo. }
  clear Hsame.
  rewrite !(records_db _ _ _ Hdb2) in *.
  rewrite (get_info_run _ _ Hdb2 Hnf), (get_owners_run _ _ Hdb2 Hnf),
    (get_events_run _ _ Hdb2 Hnf).
  destruct (head _) as [doc|] eqn:Hhd.
  2: { by apply head_None, query_nil_inv in Hhd. }
  apply query_head in Hhd as (r & _ & -> & _). rewrite truthy_to_dict.
  eexists _, _, _. split_and!; [reflexivity..| |reflexivity|].
  - by intros ?%fmap_nil_inv%fmap_nil_inv.
  - by intros ?%fmap_nil_inv%query_nil_inv.
Qed.

Lemma seeded_store_answers_witness :
  let w1 := (ensure_seed_data fresh_world).2 in
  (records "info" w1 ≠ [] ∧ records "owner" w1 ≠ [] ∧ records "event" w1 ≠ []) ∧
  ∃ (doc : document) (owners events : list document),
    get_info w1 = (Return doc, served w1) ∧
    get_owners w1 = (Return owners, served w1) ∧ owners ≠ [] ∧
    get_events w1 = (Return events, served w1) ∧ events ≠ [].
Proof.
  assert (ensure_seed_data fresh_world
          = (Return tt, (ensure_seed_data fresh_world).2)) as Hrun
    by (vm_compute; reflexivity).
  destruct (seeded_store_answers fresh_world _ (mk_is_Some _ _ eq_refl) Hrun)
    as [Hne Hread].
  split; [exact Hne|]. apply Hread; [reflexivity|vm_compute; reflexivity].
Defined.

(** X8. Seeding is idempotent on the whole database: once
    [ensure_seed_data] has returned normally, running it again (over a
    connection that fails or not) leaves the database exactly as it is: no
    record is added to any collection and no identifier is used up. *)
Theorem seeding_twice (w w1 : world) (f : list (option string)) :
  ensure_seed_data w = (Return tt, w1) →
  db (ensure_seed_data (set_faults f w1)).2 = db w1.
Proof.
  intros Hrun. destruct (db w) as [d|] eqn:Hdb.
  - destruct (seeding_returns_nonempty w w1 (mk_is_Some _ _ Hdb) Hrun)
      as (Hinfo & Howner & Hevent).
    by apply (seeding_skips_all (set_faults f w1)).
  - unfold ensure_seed_data in Hrun. rewrite handle_run, Hdb in Hrun.
    injection Hrun as <-. unfold ensure_seed_data.
    rewrite handle_run. simpl. by rewrite Hdb.
Qed.

Lemma seeding_twice_witness :
  db (ensure_seed_data
        (set_faults [None; Some "connection reset"]
                    (ensure_seed_data fresh_world).2)).2
  = db (ensure_seed_data fresh_world).2.
Proof.
  apply (seeding_twice fresh_world). vm_compute. reflexivity.
Defined.

(** ** Seeding over a connection that serves every call *)

Lemma for_each_create_reliable (c : string) (l : list document) (w : world) :
  is_Some (db w) → reliable w → Forall (λ data, data !! "_id" = None) l →
  ∃ w', for_each l (create_document c) w = (Return tt, w') ∧
        reliable w' ∧ is_Some (db w') ∧ clock w' = clock w ∧
        ∀ n : string, n ≠ c → records n w' = records n w.
Proof.
  intros Hdb Hw Hl. revert w Hdb Hw.
  induction Hl as [|data l Hid Hl IH]; intros w Hdb Hw; simpl.
  - by exists w.
  - rewrite bind_run.
    destruct (create_document_reliable c data w Hdb Hw Hid)
      as (w1 & -> & Hw1 & Hdb1 & Hc1 & _ & _ & Hf1).
    destruct (IH w1 Hdb1 Hw1) as (w' & -> & Hw' & Hdb' & Hc' & Hf').
    exists w'. split_and!; [done..|congruence|].
    intros n Hn. by rewrite Hf', Hf1.
Qed.

Lemma seed_info_step_fresh (w : world) :
  is_Some (db w) → reliable w → records "info" w = [] →
  ∃ (w1 : world) (i : N),
    seed_info_step w = (Return tt, w1) ∧
    reliable w1 ∧ is_Some (db w1) ∧ clock w1 = clock w ∧
    records "info" w1 =
      [Stored (VOid i) (<["created_at" := VDate (clock w (tick w))]> seed_info)] ∧
    ∀ n : string, n ≠ "info" → records n w1 = records n w.
Proof.
  intros Hdb Hw Hempty. unfold seed_info_step.
  rewrite bind_run, (count_documents_reliable _ _ Hdb Hw), Hempty. simpl.
  destruct (create_document_reliable "info" seed_info w Hdb Hw eq_refl)
    as (w1 & -> & Hw1 & Hdb1 & Hc1 & _ & [i Hr] & Hf1).
  exists w1, i. split_and!; [done..| |done]. by rewrite Hr, Hempty.
Qed.

Lemma seed_owners_step_reliable (w : world) :
  is_Some (db w) → reliable w →
  ∃ w2, seed_owners_step w = (Return tt, w2) ∧
        reliable w2 ∧ is_Some (db w2) ∧ clock w2 = clock w ∧
        ∀ n : string, n ≠ "owner" → records n w2 = records n w.
Proof.
  intros Hdb Hw. unfold seed_owners_step.
  rewrite bind_run, (count_documents_reliable _ _ Hdb Hw).
  destruct (_ =? 0).
  - apply for_each_create_reliable; [done..|]. by repeat constructor.
  - by exists w.
Qed.

Lemma seed_events_step_reliable (w : world) :
  is_Some (db w) → reliable w →
  ∃ w3, seed_events_step w = (Return tt, w3) ∧
        reliable w3 ∧ is_Some (db w3) ∧ clock w3 = clock w ∧
        ∀ n : string, n ≠ "event" → records n w3 = records n w.
Proof.
  intros Hdb Hw. unfold seed_events_step.
  rewrite bind_run, (count_documents_reliable _ _ Hdb Hw).
  destruct (_ =? 0).
  - rewrite bind_run. unfold utcnow at 1.
    apply (for_each_create_reliable "event" _ (set_tick (S (tick w)) w));
      [done..|].
    by repeat constructor.
  - by exists w.
Qed.

Lemma query_singleton (sort : option (string * direction)) (r : stored) :
  query sort [r] = [to_dict r].
Proof. by destruct sort as [[field dir]|]. Qed.

(** What seeding leaves in each collection it found empty. *)
Lemma seeding_reliable (w : world) :
  is_Some (db w) → reliable w →
  ∃ w', ensure_seed_data w = (Return tt, w') ∧ reliable w' ∧ is_Some (db w') ∧
    (records "info" w = [] →
     ∃ i, records "info" w' =
            [Stored (VOid i)
               (<["created_at" := VDate (clock w (tick w))]> seed_info)]) ∧
    (records "owner" w = [] →
     ∃ i1 i2 t1 t2, records "owner" w' =
       [ Stored (VOid i1) (<["created_at" := VDate t1]> seed_owner_lena);
         Stored (VOid i2) (<["created_at" := VDate t2]> seed_owner_max) ]) ∧
    (records "event" w = [] →
     ∃ i1 i2 i3 t1 t2 t3 now, records "event" w' =
       [ Stored (VOid i1)
           (<["created_at" := VDate t1]>
              (seed_event_kabarett (replace_time 19 30 now)));
         Stored (VOid i2)
           (<["created_at" := VDate t2]>
              (seed_event_improv (replace_time 19 30 now)));
         Stored (VOid i3)
           (<["created_at" := VDate t3]>
              (seed_event_standup (replace_time 19 30 now))) ]).
Proof.
  intros Hdb Hw.
  assert (∃ w1, seed_info_step w = (Return tt, w1) ∧ reliable w1 ∧
                is_Some (db w1) ∧
                (∀ n : string, n ≠ "info" → records n w1 = records n w) ∧
                (records "info" w = [] →
                 ∃ i, records "info" w1 =
                   [Stored (VOid i)
                      (<["created_at" := VDate (clock w (tick w))]> seed_info)]))
    as (w1 & Hrun1 & Hw1 & Hdb1 & Hf1 & Hinfo).
  { destruct (records "info" w) as [|r rs] eqn:Hi.
    - destruct (seed_info_step_fresh w Hdb Hw Hi)
        as (w1 & i & ? & ? & ? & ? & ? & ?).
      exists w1. split_and!; [done..|]. intros _. by exists i.
    - destruct (seed_info_step_reliable w Hdb Hw)
        as (w1 & ? & ? & ? & ? & ? & ?).
      exists w1. by split_and!. }
  assert (∃ w2, seed_owners_step w1 = (Return tt, w2) ∧ reliable w2 ∧
                is_Some (db w2) ∧
                (∀ n : string, n ≠ "owner" → records n w2 = records n w1) ∧
                (records "owner" w = [] →
                 ∃ i1 i2 t1 t2, records "owner" w2 =
                   [ Stored (VOid i1) (<["created_at" := VDate t1]> seed_owner_lena);
                     Stored (VOid i2) (<["created_at" := VDate t2]> seed_owner_max) ]))
    as (w2 & Hrun2 & Hw2 & Hdb2 & Hf2 & Howner).
  { destruct (records "owner" w) as [|r rs] eqn:Ho.
    - destruct (seed_owners_step_fresh w1 Hdb1 Hw1)
        as (w2 & i1 & i2 & ? & ? & ? & ? & ? & ? & ?); [by rewrite Hf1|].
      exists w2. split_and!; [done..|]. intros _. by eexists i1, i2, _, _.
    - destruct (seed_owners_step_reliable w1 Hdb1 Hw1)
        as (w2 & ? & ? & ? & ? & ?).
      exists w2. by split_and!. }
  assert (∃ w3, seed_events_step w2 = (Return tt, w3) ∧ reliable w3 ∧
                is_Some (db w3) ∧
                (∀ n : string, n ≠ "event" → records n w3 = records n w2) ∧
                (records "event" w = [] →
                 ∃ i1 i2 i3 t1 t2 t3 now, records "event" w3 =
                   [ Stored (VOid i1)
                       (<["created_at" := VDate t1]>
                          (seed_event_kabarett (replace_time 19 30 now)));
                     Stored (VOid i2)
                       (<["created_at" := VDate t2]>
                          (seed_event_improv (replace_time 19 30 now)));
                     Stored (VOid i3)
                       (<["created_at" := VDate t3]>
                          (seed_event_standup (replace_time 19 30 now))) ]))
    as (w3 & Hrun3 & Hw3 & Hdb3 & Hf3 & Hevent).
  { destruct (records "event" w) as [|r rs] eqn:He.
    - destruct (seed_events_step_fresh w2 Hdb2 Hw2)
        as (w3 & i1 & i2 & i3 & t1 & t2 & t3 & ? & ? & ? & ? & ?);
        [by rewrite Hf2, Hf1|].
      exists w3. split_and!; [done..|]. intros _.
      by eexists i1, i2, i3, t1, t2, t3, _.
    - destruct (seed_events_step_reliable w2 Hdb2 Hw2)
        as (w3 & ? & ? & ? & ? & ?).
      exists w3. by split_and!. }
  exists w3. split_and!; [|done..| | |done].
  - unfold ensure_seed_data. rewrite handle_run. destruct Hdb as [d ->].
    by rewrite bind_run, Hrun1, bind_run, Hrun2.
  - intros Hi. rewrite Hf3, Hf2 by done. by apply Hinfo.
  - intros Ho. rewrite Hf3 by done. by apply Howner.
Qed.

(** X9. Seeding the venue.  On a store whose info collection is empty, over
    a connection that serves every call, [ensure_seed_data] completes and
    the info collection then holds exactly one record; [get_info] answers
    with the seed venue of the source ("Kabarett & Impro Wien",
    Kreativgasse 12, Wien, ... all twelve fields), stamped under
    ["created_at"] with the reading of the clock at its creation, and
    without an identifier. *)
Theorem seeded_info (w : world) :
  is_Some (db w) → reliable w → records "info" w = [] →
  ∃ (w' : world) (doc : document),
    ensure_seed_data w = (Return tt, w') ∧
    length (records "info" w') = 1%nat ∧
    get_info w' = (Return doc, served w') ∧
    doc = <["created_at" := VDate (clock w (tick w))]> seed_info ∧
    doc !! "_id" = None ∧
    doc !! "name" = Some (VStr "Kabarett & Impro Wien") ∧
    dom doc = dom seed_info ∪ {["created_at"]}.
Proof.
  intros Hdb Hw Hempty.
  destruct (seeding_reliable w Hdb Hw)
    as (w' & Hrun & Hw' & [d' Hdb'] & Hinfo & _).
  destruct (Hinfo Hempty) as [i Hr].
  exists w', (<["created_at" := VDate (clock w (tick w))]> seed_info).
  split; [exact Hrun|]. split; [by rewrite Hr|]. split.
  { rewrite (get_info_run _ _ Hdb' (next_fault_nil _ Hw')).
    rewrite <- (records_db _ _ _ Hdb'), Hr, query_singleton.
    cbn [head]. rewrite truthy_to_dict. by rewrite pop_id_to_dict. }
  split; [reflexivity|]. split; [reflexivity|]. split; [reflexivity|].
  rewrite dom_insert_L. set_solver.
Qed.

Lemma seeded_info_witness :
  ∃ (w' : world) (doc : document),
    ensure_seed_data fresh_world = (Return tt, w') ∧
    length (records "info" w') = 1%nat ∧
    get_info w' = (Return doc, served w') ∧
    doc = <["created_at" := VDate (clock fresh_world (tick fresh_world))]>
            seed_info ∧
    doc !! "_id" = None ∧
    doc !! "name" = Some (VStr "Kabarett & Impro Wien") ∧
    dom doc = dom seed_info ∪ {["created_at"]}.
Proof.
  apply (seeded_info fresh_world); [by eexists|reflexivity..].
Defined.

(** ** The seed content and the response models *)

(** X10. The documents seeding inserts fit the response models of their
    endpoints.  Over a connection that serves every call: where the info
    collection was empty, what [get_info] returns after seeding has every
    field [InfoOut] requires, as a string, and its optional fields as
    strings; where the owner collection was empty, [get_owners] returns two
    documents that fit [OwnerOut]; where the event collection was empty,
    [get_events] returns three documents that fit [EventOut] (the date a
    date-time, the duration an integer). *)
Theorem seeded_content_fits_models (w : world) :
  is_Some (db w) → reliable w →
  ∃ w', ensure_seed_data w = (Return tt, w') ∧
    (records "info" w = [] →
     ∃ doc, get_info w' = (Return doc, served w') ∧
            fits_model InfoOut doc = true) ∧
    (records "owner" w = [] →
     ∃ owners, get_owners w' = (Return owners, served w') ∧
               length owners = 2%nat ∧
               Forall (λ doc, fits_model OwnerOut doc = true) owners) ∧
    (records "event" w = [] →
     ∃ events, get_events w' = (Return events, served w') ∧
               length events = 3%nat ∧
               Forall (λ doc, fits_model EventOut doc = true) events).
Proof.
  intros Hdb Hw.
  destruct (seeding_reliable w Hdb Hw)
    as (w' & Hrun & Hw' & [d' Hdb'] & Hinfo & Howner & Hevent).
  pose proof (next_fault_nil _ Hw') as Hnf'.
  exists w'. split; [exact Hrun|]. split_and!.
  - intros Hi. destruct (Hinfo Hi) as [i Hr]. eexists.
    rewrite (get_info_run _ _ Hdb' Hnf').
    rewrite <- (records_db _ _ _ Hdb'), Hr, query_singleton.
    cbn [head]. rewrite truthy_to_dict. split; reflexivity.
  - intros Ho. destruct (Howner Ho) as (i1 & i2 & t1 & t2 & Hr). eexists.
    rewrite (get_owners_run _ _ Hdb' Hnf').
    rewrite <- (records_db _ _ _ Hdb'), Hr.
    split; [reflexivity|]. split; [reflexivity|].
    repeat constructor.
  - intros He.
    destruct (Hevent He) as (i1 & i2 & i3 & t1 & t2 & t3 & now & Hr). eexists.
    rewrite (get_events_run _ _ Hdb' Hnf').
    rewrite <- (records_db _ _ _ Hdb'), Hr.
    split; [reflexivity|]. split.
    + rewrite length_fmap. unfold query. by rewrite sort_by_perm.
    + rewrite query_perm. repeat constructor.
Qed.

Lemma seeded_content_fits_models_witness :
  ∃ w', ensure_seed_data fresh_world = (Return tt, w') ∧
    (∃ doc, get_info w' = (Return doc, served w') ∧
            fits_model InfoOut doc = true) ∧
    (∃ owners, get_owners w' = (Return owners, served w') ∧
               length owners = 2%nat ∧
               Forall (λ doc, fits_model OwnerOut doc = true) owners) ∧
    (∃ events, get_events w' = (Return events, served w') ∧
               length events = 3%nat ∧
               Forall (λ doc, fits_model EventOut doc = true) events).
Proof.
  destruct (seeded_content_fits_models fresh_world)
    as (w' & Hrun & Hinfo & Howner & Hevent); [by eexists|reflexivity|].
  exists w'. split; [exact Hrun|].
  split; [by apply Hinfo|]. split; [by apply Howner|by apply Hevent].
Defined.

(** A document that lacks a required field, or holds a value of another
    type under one, does not fit. *)
Example fits_model_rejects :
  fits_model InfoOut {[ "name" := VStr "new"; "created_at" := VDate 9 ]} = false ∧
  fits_model EventOut (<["date" := VStr "tomorrow"]> (seed_event_kabarett 0)) = false ∧
  fits_model OwnerOut (delete "avatar" seed_owner_max) = true.
Proof. vm_compute. by split_and!. Qed.

(** ** Seeding that fails half way *)

Lemma ensure_seed_data_keeps (name : string) (w : world) :
  records name w ≠ [] → keeps name ensure_seed_data w.
Proof.
  intros Hne. unfold ensure_seed_data. apply keeps_bind; [done|].
  intros h w0 [= <- <-]. destruct (db w) as [d|]; [|done].
  apply keeps_bind; [by apply seed_steps_keep|].
  intros [] w1 Hrun1.
  assert (records name w1 = records name w) as H1.
  { destruct (seed_steps_keep name w Hne) as (Hk & _).
    unfold keeps in Hk. by rewrite Hrun1 in Hk. }
  apply keeps_bind; [apply seed_steps_keep; by rewrite H1|].
  intros [] w2 Hrun2.
  assert (records name w2 = records name w1) as H2.
  { destruct (seed_steps_keep name w1) as (_ & Hk & _); [by rewrite H1|].
    unfold keeps in Hk. by rewrite Hrun2 in Hk. }
  apply seed_steps_keep. by rewrite H2, H1.
Qed.

(** X11. Seeding is not atomic and does not repair itself.  When the info
    collection has records, the owner collection is empty and the
    connection serves three calls and fails the fourth (the insertion of
    the second owner), [ensure_seed_data] raises that error and leaves
    "Lena Leitner" alone in the owner collection; and since seeding looks
    only at emptiness, no later run adds "Max Maurer": [get_owners] keeps
    answering with the one owner. *)
Theorem partial_seeding_persists (w : world) (d : Database) (msg : string)
    (rest : list (option string)) :
  db w = Some d → records "info" w ≠ [] → records "owner" w = [] →
  faults w = None :: None :: None :: Some msg :: rest →
  ∃ (w1 : world) (lena : stored),
    ensure_seed_data w = (Raise (Exception msg), w1) ∧
    startup_event w = (Return tt, w1) ∧
    records "owner" w1 = [lena] ∧
    fields lena = <["created_at" := VDate (clock w (tick w))]> seed_owner_lena ∧
    ∀ f : list (option string),
      let w2 := (ensure_seed_data (set_faults f w1)).2 in
      records "owner" w2 = [lena] ∧
      (next_fault w2 = None → (get_owners w2).1 = Return [fields lena]).
Proof.
  intros Hdb Hinfo Howner Hf.
  assert (collection d "owner" = []) as Ho
    by by rewrite <- (records_db _ _ _ Hdb).
  rewrite (records_db _ _ _ Hdb) in Hinfo.
  set (wa := served (served w)).
  set (wb := created "owner" seed_owner_lena d wa).
  assert (next_fault w = None) as Hnf0 by (unfold next_fault; by rewrite Hf).
  assert (next_fault (served w) = None) as Hnf1.
  { unfold next_fault. change (faults (served w)) with (tail (faults w)).
    by rewrite Hf. }
  assert (next_fault wa = None) as Hnf2.
  { unfold next_fault. change (faults wa) with (tail (tail (faults w))).
    by rewrite Hf. }
  assert (next_fault wb = Some msg) as Hnf3.
  { unfold next_fault. change (faults wb) with (tail (tail (tail (faults w)))).
    by rewrite Hf. }
  assert (ensure_seed_data w =
            (Raise (Exception msg), served (set_tick (S (tick wb)) wb)))
    as Hrun.
  { unfold ensure_seed_data. rewrite handle_run, Hdb, bind_run.
    unfold seed_info_step.
    rewrite bind_run, (count_documents_run "info" w d Hdb Hnf0).
    destruct (collection d "info") as [|r rs] eqn:Hi; [done|].
    change (Z.of_nat (length (r :: rs)) =? 0) with false.
    cbv beta iota zeta delta [mret ST_ret].
    rewrite bind_run. unfold seed_owners_step.
    rewrite bind_run, (count_documents_run "owner" (served w) d Hdb Hnf1).
    rewrite Ho. change (Z.of_nat (length []) =? 0) with true.
    cbv beta iota zeta delta [seed_owners for_each]. rewrite bind_run.
    fold wa.
    rewrite (create_document_run "owner" seed_owner_lena wa d Hdb Hnf2 eq_refl).
    fold wb. rewrite bind_run.
    by rewrite (create_document_fault "owner" seed_owner_max wb _ msg
                  eq_refl Hnf3). }
  set (w1 := served (set_tick (S (tick wb)) wb)) in *.
  set (lena := Stored (VOid (next_oid d))
                 (<["created_at" := VDate (clock w (tick w))]> seed_owner_lena)).
  exists w1, lena. split; [exact Hrun|].
  split; [unfold startup_event, try_except; by rewrite Hrun|].
  assert (records "owner" w1 = [lena]) as Hone.
  { change (records "owner" w1) with
      (collection
         (MkDatabase
            (<["owner" := collection d "owner" ++ [lena]]> (collections d))
            (N.succ (next_oid d))) "owner").
    by rewrite collection_insert_eq, Ho. }
  split; [exact Hone|]. split; [reflexivity|].
  intros f. cbv zeta.
  assert (records "owner" (ensure_seed_data (set_faults f w1)).2 = [lena])
    as Hkept.
  { rewrite <- Hone.
    apply (ensure_seed_data_keeps "owner" (set_faults f w1)).
    change (records "owner" (set_faults f w1)) with (records "owner" w1).
    by rewrite Hone. }
  split; [exact Hkept|]. intros Hnf.
  destruct (db (ensure_seed_data (set_faults f w1)).2) as [d2|] eqn:Hdb2.
  - rewrite (get_owners_run _ _ Hdb2 Hnf).
    rewrite <- (records_db _ _ _ Hdb2), Hkept. cbn [fmap list_fmap fst].
    by rewrite pop_id_to_dict.
  - unfold records in Hkept. by rewrite Hdb2 in Hkept.
Qed.

Lemma partial_seeding_persists_witness :
  ∃ (w1 : world) (lena : stored),
    ensure_seed_data dropping_world
      = (Raise (Exception "connection reset"), w1) ∧
    startup_event dropping_world = (Return tt, w1) ∧
    records "owner" w1 = [lena] ∧
    fields lena =
      <["created_at" := VDate (clock dropping_world (tick dropping_world))]>
        seed_owner_lena ∧
    records "owner" (ensure_seed_data (set_faults [] w1)).2 = [lena] ∧
    (get_owners (ensure_seed_data (set_faults [] w1)).2).1
      = Return [fields lena].
Proof.
  destruct (partial_seeding_persists dropping_world shuffled_db
              "connection reset" [])
    as (w1 & lena & Hrun & Hstart & Hone & Hfields & Hlater);
    [reflexivity|vm_compute; discriminate|reflexivity|reflexivity|].
  exists w1, lena. split; [exact Hrun|]. split; [exact Hstart|].
  split; [exact Hone|]. split; [exact Hfields|].
  destruct (Hlater []) as [Hkept Hget]. split; [exact Hkept|].
  apply Hget.
  assert (w1 = (ensure_seed_data dropping_world).2) as -> by by rewrite Hrun.
  vm_compute. reflexivity.
Defined.

(** ** The collections seeding touches *)

Lemma creates_within_ret {A : Type} (X : gset string) (a : A) :
  creates_within X (mret a).
Proof. intros w. simpl. set_solver. Qed.

Lemma creates_within_bind {A B : Type} (X : gset string) (m : M A) (f : A → M B) :
  creates_within X m → (∀ a, creates_within X (f a)) →
  creates_within X (m ≫= f).
Proof.
  intros Hm Hf w. rewrite bind_run. specialize (Hm w).
  destruct (m w) as [[a|e] w1]; simpl in *; [|done].
  specialize (Hf a w1). set_solver.
Qed.

Lemma creates_within_same {A : Type} (X : gset string) (m : M A) :
  (∀ w, db (m w).2 = db w) → creates_within X m.
Proof.
  intros Hm w. unfold collection_names. rewrite Hm. set_solver.
Qed.

Lemma creates_within_insert_one (X : gset string) (c : string) (data : document) :
  c ∈ X → creates_within X (insert_one c data).
Proof.
  intros Hc w. unfold insert_one. rewrite bind_run.
  destruct (driver_call not_subscriptable w) as [[d|e] w1] eqn:Hcall.
  - apply driver_call_returns in Hcall as (Hdb & _ & ->).
    unfold collection_names, put_db, set_db. cbn [db snd]. rewrite Hdb.
    cbn [collections]. rewrite dom_insert_L. set_solver.
  - pose proof (driver_call_db not_subscriptable w) as Hd.
    rewrite Hcall in Hd. unfold collection_names. cbn [snd] in *.
    rewrite Hd. set_solver.
Qed.

Lemma creates_within_create_document (X : gset string) (c : string)
    (data : document) :
  c ∈ X → creates_within X (create_document c data).
Proof.
  intros Hc. apply creates_within_bind; [by apply creates_within_same|].
  intros now. by apply creates_within_insert_one.
Qed.

Lemma creates_within_for_each {A : Type} (X : gset string) (l : list A)
    (body : A → M unit) :
  (∀ x, creates_within X (body x)) → creates_within X (for_each l body).
Proof.
  intros Hbody. induction l as [|x l IH]; simpl; [apply creates_within_ret|].
  apply creates_within_bind; [apply Hbody|]. by intros _.
Qed.

Lemma creates_within_step (X : gset string) (c : string) (body : M unit) :
  creates_within X body →
  creates_within X (n ← count_documents c; if n =? 0 then body else mret tt).
Proof.
  intros Hbody. apply creates_within_bind.
  - apply creates_within_bind.
    + apply creates_within_same. apply driver_call_db.
    + intros d. apply creates_within_ret.
  - intros n. destruct (n =? 0); [done|apply creates_within_ret].
Qed.

Lemma creates_within_ensure_seed_data : creates_within seeded_names ensure_seed_data.
Proof.
  assert (∀ c, bool_decide (c ∈ seeded_names) = true → ∀ data,
            creates_within seeded_names (create_document c data)) as Hcreate.
  { intros c Hc%bool_decide_eq_true data.
    by apply creates_within_create_document. }
  unfold ensure_seed_data. apply creates_within_bind;
    [by apply creates_within_same|].
  intros [d|]; [|apply creates_within_ret].
  apply creates_within_bind.
  { apply creates_within_step. by apply Hcreate. }
  intros _. apply creates_within_bind.
  { apply creates_within_step, creates_within_for_each.
    intros o. by apply Hcreate. }
  intros _. apply creates_within_step, creates_within_bind;
    [by apply creates_within_same|].
  intros now. apply creates_within_for_each. intros e. by apply Hcreate.
Qed.

Lemma records_nonempty_name (name : string) (w : world) :
  records name w ≠ [] → name ∈ collection_names w.
Proof.
  unfold records, collection_names, collection.
  destruct (db w) as [d|]; [|done]. intros Hne.
  apply elem_of_dom. by destruct (collections d !! name).
Qed.

(** X12. Seeding stays within its three collections.  Whatever the store
    holds and whichever calls fail, [ensure_seed_data] (and so startup)
    leaves the records of every collection other than [info], [owner] and
    [event] as they are, drops no collection and creates none but these
    three; and when it returns normally over a handle, the database has all
    three. *)
Theorem seeding_stays_within (w : world) :
  let w' := (ensure_seed_data w).2 in
  (∀ name, name ∉ seeded_names → records name w' = records name w) ∧
  collection_names w ⊆ collection_names w' ∧
  collection_names w' ⊆ collection_names w ∪ seeded_names ∧
  (startup_event w).2 = w' ∧
  (is_Some (db w) → (ensure_seed_data w).1 = Return tt →
   collection_names w' = collection_names w ∪ seeded_names).
Proof.
  cbv zeta. pose proof (creates_within_ensure_seed_data w) as [Hlow Hup].
  split_and!; [|done|done| |].
  - intros name Hname.
    assert (name ≠ "info" ∧ name ≠ "owner" ∧ name ≠ "event") as (Hi & Ho & He).
    { unfold seeded_names in Hname. set_solver. }
    assert (preserves name ensure_seed_data) as Hp; [|apply Hp].
    unfold ensure_seed_data. apply preserves_bind; [done|].
    intros [d|]; [|apply preserves_ret].
    assert (∀ c body, c ≠ name → preserves name body →
              preserves name (n ← count_documents c;
                              if n =? 0 then body else mret tt)) as Hstep.
    { intros c body Hc Hbody w0. by apply seed_step_keeps. }
    apply preserves_bind.
    { apply Hstep; [done|]. by apply preserves_create_document. }
    intros _. apply preserves_bind.
    { apply Hstep; [done|]. apply preserves_for_each.
      intros o. by apply preserves_create_document. }
    intros _. apply Hstep; [done|].
    apply preserves_bind; [apply preserves_utcnow|].
    intros now. apply preserves_for_each.
    intros e. by apply preserves_create_document.
  - unfold startup_event, try_except.
    by destruct (ensure_seed_data w) as [[[]|e] w1].
  - intros Hdb Hret.
    destruct (ensure_seed_data w) as [o w1] eqn:Hrun. simpl in *. subst o.
    destruct (seeding_returns_nonempty w w1 Hdb Hrun) as (Hi & Ho & He).
    apply records_nonempty_name in Hi, Ho, He.
    apply set_eq. intros name. split; [by apply Hup|].
    intros [?|Hin]%elem_of_union; [by apply Hlow|].
    unfold seeded_names in Hin. set_solver.
Qed.

Lemma seeding_stays_within_witness :
  records "press" (ensure_seed_data shuffled_world).2
    = records "press" shuffled_world ∧
  collection_names (ensure_seed_data shuffled_world).2
    = collection_names shuffled_world ∪ seeded_names.
Proof.
  pose proof (seeding_stays_within shuffled_world) as Hwithin.
  cbv zeta in Hwithin. destruct Hwithin as (Hother & _ & _ & _ & Hall).
  split.
  - apply Hother. intros Hin. vm_compute in Hin. discriminate.
  - apply Hall; [by eexists|]. vm_compute. reflexivity.
Defined.

(** ** The dates of the seeded events *)

Lemma replace_time_day (hour minute now : Z) :
  0 ≤ (hour * 3600 + minute * 60) * 1000000 < microseconds_per_day →
  replace_time hour minute now `div` microseconds_per_day
    = now `div` microseconds_per_day ∧
  replace_time hour minute now `mod` microseconds_per_day
    = (hour * 3600 + minute * 60) * 1000000.
Proof.
  intros Hrange. unfold replace_time.
  set (D := microseconds_per_day) in *. set (c := (_ + _) * 1000000) in *.
  assert (0 < D) as HD by done.
  assert (now - now `mod` D + c = c + (now `div` D) * D) as ->.
  { pose proof (Z.div_mod now D). lia. }
  split.
  - rewrite Z.div_add by lia. rewrite Z.div_small by lia. lia.
  - rewrite Z.mod_add by lia. by apply Z.mod_small.
Qed.

(** X13. The seeded events are upcoming evenings.  Whatever the clock reads
    when the event collection is seeded, the base date is the day of that
    reading at 19:30:00, and each of the three seed events is dated at
    19:30:00 of a later day: more than 6 and at most 33 days after the
    reading, the three dates strictly increasing in the order of
    insertion. *)
Theorem seeded_events_upcoming (now : Z) :
  let base_date := replace_time 19 30 now in
  base_date `div` microseconds_per_day = now `div` microseconds_per_day ∧
  base_date `mod` microseconds_per_day = (19 * 3600 + 30 * 60) * 1000000 ∧
  ∃ t1 t2 t3 : Z,
    (λ doc : document, doc !! "date") <$> seed_events base_date
      = [Some (VDate t1); Some (VDate t2); Some (VDate t3)] ∧
    t1 < t2 < t3 ∧
    Forall (λ t, now + timedelta_days 6 < t ≤ now + timedelta_days 33 ∧
                 t `mod` microseconds_per_day = (19 * 3600 + 30 * 60) * 1000000)
           [t1; t2; t3].
Proof.
  cbv zeta.
  destruct (replace_time_day 19 30 now) as [Hday Htime]; [done|].
  split; [exact Hday|]. split; [exact Htime|].
  eexists _, _, _. split; [reflexivity|].
  set (base := replace_time 19 30 now) in *.
  assert (now - microseconds_per_day < base - (19 * 3600 + 30 * 60) * 1000000
          ≤ now) as Hbase.
  { unfold base, replace_time.
    pose proof (Z.mod_pos_bound now microseconds_per_day). 
    unfold microseconds_per_day in *. lia. }
  assert (∀ n, (base + timedelta_days n) `mod` microseconds_per_day
               = (19 * 3600 + 30 * 60) * 1000000) as Hmod.
  { intros n. unfold timedelta_days. by rewrite Z.mod_add. }
  split; [unfold timedelta_days, microseconds_per_day; lia|].
  repeat constructor; try apply Hmod;
    unfold timedelta_days, microseconds_per_day in *; lia.
Qed.
